(** * diffblame: the commit-graph walk of [main.go], embedded and verified

    The development follows [main.go] top to bottom: the object-store
    accessors of go-git that the program calls ([Parent], [File],
    [IsAncestor]), then [changedFiles], the accumulators, the walk
    [accumulateCommitsForPaths] and finally [computeDiffCommits]. *)

From stdpp Require Import gmap strings list fin_maps sorting.
From Stdlib Require Import ZArith Permutation.

Open Scope Z_scope.
Open Scope nat_scope.

(** ** Outcomes of a run

    [logger.Fatalf] exits the process and a nil dereference panics; either
    way no value is returned.  [OutOfFuel] belongs to the model only: the
    recursive definitions below are structurally recursive on a fuel
    argument, and it is proved further down that the fuel they are given is
    always enough. *)
Inductive outcome (A : Type) : Type :=
  | Ok (a : A)
  | Fatal
  | Panic
  | OutOfFuel.
Arguments Ok {A} a.
Arguments Fatal {A}.
Arguments Panic {A}.
Arguments OutOfFuel {A}.

Definition bind {A B} (r : outcome A) (k : A → outcome B) : outcome B :=
  match r with
  | Ok a => k a
  | Fatal => Fatal
  | Panic => Panic
  | OutOfFuel => OutOfFuel
  end.

#[global] Instance outcome_mbind : MBind outcome := λ A B k r, bind r k.
#[global] Instance outcome_mret : MRet outcome := λ A a, Ok a.


(** [for _, x := range l { body }] over a slice, threading the state and
    stopping at the first abort. *)
Fixpoint forEach {A S} (body : A → S → outcome S) (l : list A) (s : S)
  : outcome S :=
  match l with
  | [] => Ok s
  | x :: l' => s' ← body x s; forEach body l' s'
  end.

(** ** Commits and the object store

    The commit objects and their accessors belong to go-git, which the
    sources import; they are modelled here after the interface the
    specification lists for the object store ([exists], [parent],
    [isAncestor]) and the behaviour of go-git's functions of those names. *)

(** Modelled from the spec: go-git's [object.Commit], "identified by a
    content hash", with "an ordered list of zero, one, or more parent
    commits, a committer timestamp" and "a root tree snapshot from which
    any path's presence can be looked up".  The program only ever uses a
    hash through [Hash.String()], an injective rendering, as a map key; the
    model keys its maps by the hash itself, a number.  [When] is
    [Committer.When].  A path of [Tree] maps to [Blob] when [File] finds it
    and to [Unreadable] when the lookup fails with an error other than
    [ErrFileNotFound]. *)
Inductive treeEntry := Blob | Unreadable.

Record Commit := mkCommit {
  Hash : N;
  ParentHashes : list N;
  When : Z;
  Tree : gmap string treeEntry;
}.

Definition NumParents (c : Commit) : nat := length (ParentHashes c).

Inductive fileLookup := FileFound | ErrFileNotFound | ErrOther.

#[global] Instance fileLookup_eq_dec : EqDecision fileLookup.
Proof. solve_decision. Defined.

(** Modelled from the spec: go-git's [Commit.File], the [exists(path,
    commit)] of the interface list, which finds the file, reports that it
    is not there, or fails otherwise. *)
Definition File (c : Commit) (path : string) : fileLookup :=
  match Tree c !! path with
  | Some Blob => FileFound
  | Some Unreadable => ErrOther
  | None => ErrFileNotFound
  end.

Section Repository.

(** The package-level variables [repo], [beginCommit] and [endCommit]. *)
Variable repo : gmap N Commit.
Variable beginCommit endCommit : Commit.

(** Modelled from the spec: go-git's [object.GetCommit], which decodes the
    object stored under [h]; the decoded commit carries [h] as its hash. *)
Definition GetCommit (h : N) : option Commit :=
  (λ o, mkCommit h (ParentHashes o) (When o) (Tree o)) <$> repo !! h.

(** Modelled from the spec: go-git's [Commit.Parent], the [parent(commit,
    index)] of the interface list.  [None] stands for the [(nil, err)]
    returned when the index is out of range or the object is missing. *)
Definition Parent (c : Commit) (i : nat) : option Commit :=
  h ← ParentHashes c !! i; GetCommit h.

(** [resolveCommit] for a revision given as a hash; reference names are
    resolved by go-git outside this model. *)
Definition resolveCommit (h : N) : outcome Commit :=
  match GetCommit h with
  | Some c => Ok c
  | None => Fatal
  end.

(** Modelled from the spec: go-git's [Commit.IsAncestor], the
    [isAncestor(candidate, reference)] of the interface list, true when the
    receiver [c] is an ancestor of [other].  go-git iterates over [other]
    and everything reachable from it through parent links, depth first with
    a set of hashes already met, and answers true when it meets the hash of
    [c]; a parent that does not resolve makes the iteration fail
    ([UntraversableHistory]).  Fuel is spent only when a hash not met before
    is resolved, so the size of the store is enough of it
    ([IsAncestor_total]). *)
Fixpoint preorder (fuel : nat) (target : N)
  : list N → gset N → outcome bool :=
  fix go (stack : list N) (met : gset N) : outcome bool :=
    match stack with
    | [] => Ok false
    | h :: rest =>
        if decide (h ∈ met) then go rest met
        else match GetCommit h with
             | None => Fatal
             | Some c =>
                 if decide (h = target) then Ok true
                 else match fuel with
                      | 0 => OutOfFuel
                      | S fuel' =>
                          preorder fuel' target (ParentHashes c ++ rest)
                            ({[h]} ∪ met)
                      end
             end
    end.

Definition IsAncestor (c other : Commit) : outcome bool :=
  if decide (Hash other = Hash c) then Ok true
  else preorder (size repo) (Hash c) (ParentHashes other) {[Hash other]}.

(** [ancestor c other]: [c] is an ancestor of [other], that is, [other]
    itself or a commit reached from it by following parent links. *)
Inductive ancestor (c : Commit) : Commit → Prop :=
  | ancestor_self other :
      Hash other = Hash c → ancestor c other
  | ancestor_parent other i p :
      Parent other i = Some p → ancestor c p → ancestor c other.

(** ** The change list ([changedFiles])

    [changelist.FilePatches()] is go-git's; a patch is modelled by the pair
    of paths returned by [patch.Files()], [None] for a nil file. *)
Record changeList := mkChangeList {
  added : list string;
  removed : list string;
  changed : list string;
}.

(** [strings.Contains]. *)
Fixpoint Contains (s substr : string) : bool :=
  if String.prefix substr s then true
  else match s with
       | EmptyString => false
       | String _ s' => Contains s' substr
       end.

(** [strings.HasPrefix]: what lying under a directory means. *)
Definition HasPrefix (s pre : string) : bool := String.prefix pre s.

(** One turn of the loop of lines 121-146.  With both files nil the first
    case calls [Path] on a nil file. *)
Definition classifyPatch (patch : option string * option string)
    (cl : changeList) : outcome changeList :=
  match patch with
  | (None, None) => Panic
  | (None, Some dstFile) =>
      if Contains dstFile "vendor/" then Ok cl
      else Ok (mkChangeList (added cl ++ [dstFile]) (removed cl) (changed cl))
  | (Some srcFile, None) =>
      if Contains srcFile "vendor/" then Ok cl
      else Ok (mkChangeList (added cl) (removed cl ++ [srcFile]) (changed cl))
  | (Some srcFile, Some dstFile) =>
      if decide (srcFile ≠ dstFile) then
        if Contains srcFile "vendor/" then Ok cl
        else Ok (mkChangeList (added cl ++ [dstFile])
                   (removed cl ++ [srcFile]) (changed cl))
      else
        if Contains srcFile "vendor/" then Ok cl
        else Ok (mkChangeList (added cl) (removed cl)
                   (changed cl ++ [srcFile]))
  end.

Definition changedFiles (patches : list (option string * option string))
  : outcome changeList :=
  forEach classifyPatch patches (mkChangeList [] [] []).

(** ** Path statuses *)
Inductive fileStatus :=
  | fileStatusSeeking
  | fileStatusFound
  | fileStatusRemoved.

#[global] Instance fileStatus_eq_dec : EqDecision fileStatus.
Proof. solve_decision. Defined.

(** [copyMap]: a fresh map with the entries of [m]. *)
Definition copyMap (m : gmap string fileStatus) : gmap string fileStatus :=
  map_fold (λ k v n, <[k:=v]> n) ∅ m.

(** The body of the loop of lines 220-238 for one entry of [statuses]; the
    pair carries the map being updated and [process]. *)
Definition updateStatus (current : Commit) (path : string)
    (status : fileStatus) (st : gmap string fileStatus * bool)
  : outcome (gmap string fileStatus * bool) :=
  match status with
  | fileStatusRemoved => Ok st
  | _ =>
      match File current path with
      | FileFound => Ok (<[path:=fileStatusFound]> st.1, true)
      | ErrFileNotFound =>
          match status with
          | fileStatusFound => Ok (<[path:=fileStatusRemoved]> st.1, st.2)
          | _ => Ok st
          end
      | ErrOther => Fatal
      end
  end.

(** Lines 219-238: [var process bool] and the range over [statuses], which
    only ever assigns to the key being visited.  Go leaves the order of the
    range open; the result does not depend on it, being determined entry by
    entry ([updateStatuses_fold]). *)
Definition updateStatuses (current : Commit)
    (statuses : gmap string fileStatus)
  : outcome (gmap string fileStatus * bool) :=
  map_fold (λ path status r, st ← r; updateStatus current path status st)
    (Ok (statuses, false)) statuses.

(** Lines 267-275: the [process] of a parent [p] at a fork, true as soon
    as one entry qualifies.  Any error of [p.File] counts as absence
    here. *)
Definition branchProcess (p : Commit) (statuses : gmap string fileStatus)
  : bool :=
  map_fold (λ path status process,
      process ||
      (if decide (status = fileStatusRemoved) then false
       else bool_decide (File p path = FileFound)
            || bool_decide (status = fileStatusSeeking)))
    false statuses.

(** ** Accumulators

    The closures of [addAlways] and [addIfNotAncestor] share the map
    [commits] with their caller; the model passes it in and out. *)
Definition accumulator : Type :=
  Commit → gmap N Commit → outcome (gmap N Commit * bool).

Definition addAlways : accumulator :=
  λ c commits, Ok (<[Hash c:=c]> commits, true).

Definition addIfNotAncestor (base : Commit) : accumulator :=
  λ c commits,
    ancestry ← IsAncestor c base;
    if negb ancestry then Ok (<[Hash c:=c]> commits, true)
    else Ok (commits, false).

(** ** The walk ([accumulateCommitsForPaths])

    The state of a walk: the [seen] map (only ever assigned [true], hence a
    set), the result map behind the accumulator, and the debug log, of
    which the model keeps the lines that tell what the walk did with a
    commit. *)
Inductive logEvent :=
  | AlreadyProcessed (c : Commit)
  | Considering (c : Commit)
  | RunningAccumulator (c : Commit)
  | BailingOut (c : Commit)
  | ReachedRoot (c : Commit)
  | ConsideringMerge (c : Commit).

Record walkState := mkWalkState {
  seen : gset N;
  commits : gmap N Commit;
  debugLog : list logEvent;
}.

Definition logged (e : logEvent) (s : walkState) : walkState :=
  mkWalkState (seen s) (commits s) (debugLog s ++ [e]).

Definition markSeen (c : Commit) (s : walkState) : walkState :=
  mkWalkState ({[Hash c]} ∪ seen s) (commits s) (debugLog s).

(** Lines 240-246: the accumulator call, with [true] for "go on". *)
Definition runAccumulator (acc : accumulator) (current : Commit)
    (s : walkState) : outcome (walkState * bool) :=
  let s := logged (RunningAccumulator current) s in
  '(commits', continue) ← acc current (commits s);
  Ok (mkWalkState (seen s) commits' (debugLog s), continue).

(** Lines 262-289: the body of the loop over the parents, [walk] being the
    recursive call. *)
Definition visitParent
    (walk : option Commit → gmap string fileStatus → walkState →
            outcome walkState)
    (current : Commit) (statuses : gmap string fileStatus) (idx : nat)
    (s : walkState) : outcome walkState :=
  match Parent current idx with
  | None => Fatal
  | Some p =>
      let process := branchProcess p statuses in
      isAncestor ← IsAncestor p beginCommit;
      if negb process then Ok s
      else if isAncestor : bool then Ok s
      else walk (Some p) (copyMap statuses) s
  end.

(** One unit of fuel per turn of the [for] loop and per recursive call.
    [current] is [None] after a failed [Parent(0)], whose error line 250
    only logs. *)
Fixpoint accumulateCommitsForPaths (fuel : nat) (acc : accumulator)
    (current : option Commit) (statuses : gmap string fileStatus)
    (s : walkState) : outcome walkState :=
  match fuel with
  | 0 => OutOfFuel
  | S fuel' =>
      match current with
      | None => Panic
      | Some cur =>
          if decide (Hash cur ∈ seen s) then Ok (logged (AlreadyProcessed cur) s)
          else
            let s := markSeen cur s in
            if decide (NumParents cur = 1) then
              let s := logged (Considering cur) s in
              '(statuses', process) ← updateStatuses cur statuses;
              '(s', continue) ←
                (if process : bool then runAccumulator acc cur s
                 else Ok (s, true));
              if continue : bool then
                accumulateCommitsForPaths fuel' acc (Parent cur 0) statuses' s'
              else Ok (logged (BailingOut cur) s')
            else
              let s :=
                logged (if decide (NumParents cur = 0) then ReachedRoot cur
                        else ConsideringMerge cur) s in
              forEach (visitParent (accumulateCommitsForPaths fuel' acc)
                         cur statuses)
                (seq 0 (NumParents cur)) s
      end
  end.

(** ** [computeDiffCommits] *)

(** Every turn of the walk marks a commit of the store that was not seen
    before, so one unit more than the store has objects is fuel enough
    ([walk_total]). *)
Definition walkFuel : nat := S (size repo).

(** A top-level call: [seen] is nil and replaced by a fresh map, and the
    walk starts at [endCommit]. *)

Definition walkFromEnd (acc : accumulator)
    (statuses : gmap string fileStatus) (commitsSet : gmap N Commit)
    (lg : list logEvent) : outcome walkState :=
  accumulateCommitsForPaths walkFuel acc (Some endCommit) statuses
    (mkWalkState ∅ commitsSet lg).

Definition initStatuses (status : fileStatus) (paths : list string)
  : gmap string fileStatus :=
  foldl (λ statuses path, <[path:=status]> statuses) ∅ paths.

(** Lines 152-173: the three walks over the shared [commitsSet]. *)
Definition collectCommits (cl : changeList) : outcome walkState :=
  s1 ← walkFromEnd addAlways
         (initStatuses fileStatusFound (added cl)) ∅ [];
  s2 ← walkFromEnd (addIfNotAncestor endCommit)
         (initStatuses fileStatusSeeking (removed cl))
         (commits s1) (debugLog s1);
  walkFromEnd (addIfNotAncestor endCommit)
    (initStatuses fileStatusFound (changed cl))
    (commits s2) (debugLog s2).

(** [sort.Slice] promises no stability; on the short slices it is an
    insertion sort that moves each element left while [less] holds. *)
Fixpoint insertSorted {A} (less : A → A → bool) (x : A) (l : list A)
  : list A :=
  match l with
  | [] => [x]
  | y :: l' => if less x y then x :: y :: l' else y :: insertSorted less x l'
  end.

Definition sortSlice {A} (less : A → A → bool) (l : list A) : list A :=
  foldl (λ sorted x, insertSorted less x sorted) [] l.

Definition Before (t u : Z) : bool := (t <? u)%Z.

(** Lines 175-183.  [rangeCommits] is the order in which [range] yields
    the values of [commitsSet], which Go leaves unspecified. *)
Definition computeDiffCommits
    (rangeCommits : gmap N Commit → list Commit) (cl : changeList)
  : outcome (list Commit) :=
  s ← collectCommits cl;
  Ok (sortSlice (λ ci cj, Before (When ci) (When cj))
        (rangeCommits (commits s))).

(** What Go guarantees about [range] over a map: every entry once. *)
Definition rangeOrder (rangeCommits : gmap N Commit → list Commit) : Prop :=
  ∀ m, rangeCommits m ≡ₚ (map_to_list m).*2.

End Repository.

(** ** Notions the statements below are written in *)

(** A tracked path that is not [Removed] exists in the tree of [c]. *)
Definition interesting (c : Commit) (m : gmap string fileStatus) : Prop :=
  ∃ path status,
    m !! path = Some status ∧ status ≠ fileStatusRemoved ∧
    File c path = FileFound.

(** A tracked path that is not [Removed] fails to load from [c]. *)
Definition unreadable (c : Commit) (m : gmap string fileStatus) : Prop :=
  ∃ path status,
    m !! path = Some status ∧ status ≠ fileStatusRemoved ∧
    File c path = ErrOther.

(** The commits a stretch of the log says were visited (marked seen), and
    those it says were handed to the accumulator. *)
Definition visitOf (e : logEvent) : option Commit :=
  match e with
  | Considering c | ReachedRoot c | ConsideringMerge c => Some c
  | _ => None
  end.

Definition accumulatedOf (e : logEvent) : option Commit :=
  match e with RunningAccumulator c => Some c | _ => None end.

Definition visits (evs : list logEvent) : list N :=
  Hash <$> omap visitOf evs.

Definition accumulated (evs : list logEvent) : list N :=
  Hash <$> omap accumulatedOf evs.

(** What a log line tells about the commit it names. *)
Definition eventOk (repo : gmap N Commit) (e : logEvent) : Prop :=
  match e with
  | Considering c | RunningAccumulator c | BailingOut c => NumParents c = 1
  | ReachedRoot c => NumParents c = 0
  | ConsideringMerge c =>
      2 ≤ NumParents c ∧
      ∀ idx, idx < NumParents c → is_Some (Parent repo c idx)
  | AlreadyProcessed _ => True
  end.

(** [walked repo s evs s']: a walk took the state from [s] to [s'] and
    logged [evs] on the way. *)
Definition walked (repo : gmap N Commit) (s : walkState)
    (evs : list logEvent) (s' : walkState) : Prop :=
  debugLog s' = debugLog s ++ evs ∧
  seen s' = list_to_set (visits evs) ∪ seen s ∧
  NoDup (visits evs) ∧
  (∀ h, h ∈ visits evs → h ∉ seen s) ∧
  accumulated evs `sublist_of` visits evs ∧
  Forall (eventOk repo) evs.

(** Every commit considered on the fast path either made the walk bail
    out or had its parent resolved. *)
Definition parentsResolved (repo : gmap N Commit) (evs : list logEvent)
  : Prop :=
  ∀ c, Considering c ∈ evs → BailingOut c ∈ evs ∨ is_Some (Parent repo c 0).

(** An accumulator adds nothing but the commit it is given, under its
    hash. *)
Definition accInserts (acc : accumulator) : Prop :=
  ∀ c cs cs' continue, acc c cs = Ok (cs', continue) →
    ∀ h x, cs' !! h = Some x → cs !! h = Some x ∨ (x = c ∧ h = Hash c).

(** The [branchProcess] of the walker's contract. *)
Definition seekingOrPresent (p : Commit) (m : gmap string fileStatus)
  : Prop :=
  interesting p m ∨ ∃ path, m !! path = Some fileStatusSeeking.


(** Invariant of the ancestry iteration: the parents of what was met are
    met or still on the stack. *)
Definition closedUnder (repo : gmap N Commit) (stack : list N)
    (met : gset N) : Prop :=
  ∀ h o p, h ∈ met → repo !! h = Some o → p ∈ ParentHashes o →
    p ∈ met ∨ p ∈ stack.

(** The test [changedFiles] applies to a path. *)
Definition excluded (path : string) : Prop :=
  Contains path "vendor/" = true.

(** ** Histories used as concrete inputs *)

(** Two orders in which [range] may yield a result map. *)
Definition valuesInOrder (m : gmap N Commit) : list Commit :=
  (map_to_list m).*2.


Definition withFile : gmap string treeEntry := {[ "file.txt" := Blob ]}.

(** A(root) - B(adds file.txt) - C(modifies file.txt) - D(deletes file.txt). *)
Module Linear.
Definition A := mkCommit 1 [] 10 ∅.
Definition B := mkCommit 2 [1%N] 20 withFile.
Definition C := mkCommit 3 [2%N] 30 withFile.
Definition D := mkCommit 4 [3%N] 40 ∅.
Definition repo : gmap N Commit :=
  {[ 1%N := A; 2%N := B; 3%N := C; 4%N := D ]}.
Definition removedFile := mkChangeList [] ["file.txt"] [].
Definition addedFile := mkChangeList ["file.txt"] [] [].
End Linear.

(** R(root) - A - {B, C} - D(merge of B and C) - E, file.txt in every
    commit. *)
Module Diamond.
Definition R := mkCommit 1 [] 10 withFile.
Definition A := mkCommit 2 [1%N] 20 withFile.
Definition B := mkCommit 3 [2%N] 30 withFile.
Definition C := mkCommit 4 [2%N] 31 withFile.
Definition D := mkCommit 5 [3%N; 4%N] 40 withFile.
Definition E := mkCommit 6 [5%N] 50 withFile.
Definition repo : gmap N Commit :=
  {[ 1%N := R; 2%N := A; 3%N := B; 4%N := C; 5%N := D; 6%N := E ]}.
Definition statuses : gmap string fileStatus :=
  {[ "file.txt" := fileStatusFound ]}.
Definition start := mkWalkState ∅ ∅ [].
Definition addedFile := mkChangeList ["file.txt"] [] [].
End Diamond.

(** R(root) - X - Y with file.txt in X and Y, committed in the same
    instant. *)
Module Tie.
Definition R := mkCommit 1 [] 10 ∅.
Definition X := mkCommit 2 [1%N] 20 withFile.
Definition Y := mkCommit 3 [2%N] 20 withFile.
Definition repo : gmap N Commit := {[ 1%N := R; 2%N := X; 3%N := Y ]}.
Definition addedFile := mkChangeList ["file.txt"] [] [].
End Tie.

(** M(root) - P(adds file.txt), then two children of P: B, which deletes
    the file, and E, which keeps it. *)
Module Fork.
Definition M := mkCommit 1 [] 10 ∅.
Definition P := mkCommit 2 [1%N] 20 withFile.
Definition B := mkCommit 3 [2%N] 30 ∅.
Definition E := mkCommit 4 [2%N] 40 withFile.
Definition repo : gmap N Commit := {[ 1%N := M; 2%N := P; 3%N := B; 4%N := E ]}.
Definition addedFile := mkChangeList ["file.txt"] [] [].
End Fork.

(** Q(root) - A(file.txt) - B(no file.txt) - C(file.txt): the file
    reappears further back. *)
Module Reappear.
Definition Q := mkCommit 1 [] 10 ∅.
Definition A := mkCommit 2 [1%N] 20 withFile.
Definition B := mkCommit 3 [2%N] 30 ∅.
Definition C := mkCommit 4 [3%N] 40 withFile.
Definition repo : gmap N Commit := {[ 1%N := Q; 2%N := A; 3%N := B; 4%N := C ]}.
Definition removedStatus : gmap string fileStatus :=
  {[ "file.txt" := fileStatusRemoved ]}.
End Reappear.

(** Stores with a missing object: X names a parent that is not there, and
    so does the merge M for its second parent. *)
Module Dangling.
Definition R := mkCommit 1 [] 10 withFile.
Definition X := mkCommit 2 [9%N] 20 withFile.
Definition M := mkCommit 3 [1%N; 9%N] 30 withFile.
Definition repo : gmap N Commit := {[ 1%N := R; 2%N := X; 3%N := M ]}.
Definition addedFile := mkChangeList ["file.txt"] [] [].
End Dangling.

(** An accumulator that fails on anything but a single-parent commit. *)
Definition addSingleParent : accumulator :=
  λ c commits, if decide (NumParents c = 1) then addAlways c commits else Fatal.

(** ** Further notions *)

(** The commit a log line names. *)
Definition eventCommit (e : logEvent) : Commit :=
  match e with
  | AlreadyProcessed c | Considering c | RunningAccumulator c
  | BailingOut c | ReachedRoot c | ConsideringMerge c => c
  end.

(** [traced repo cur m s evs s']: a walk started at [cur] with the statuses
    [m] took the state from [s] to [s'], logging [evs]. *)
Definition traced (repo : gmap N Commit) (cur : Commit)
    (m : gmap string fileStatus) (s : walkState) (evs : list logEvent)
    (s' : walkState) : Prop :=
  debugLog s' = debugLog s ++ evs ∧
  Forall (λ e, ancestor repo (eventCommit e) cur) evs ∧
  (∀ c, RunningAccumulator c ∈ evs →
        ∃ path, path ∈ dom m ∧ File c path = FileFound) ∧
  ((∀ c, RunningAccumulator c ∉ evs) → commits s' = commits s).

(** An accumulator leaves every key but the hash of its commit alone. *)
Definition accOwnKey (acc : accumulator) : Prop :=
  ∀ c cs cs' continue, acc c cs = Ok (cs', continue) →
    ∀ h, h ≠ Hash c → cs' !! h = cs !! h.

(** No status but Removed is left in [m]. *)
Definition exhausted (m : gmap string fileStatus) : Prop :=
  ∀ path status, m !! path = Some status → status = fileStatusRemoved.

(** An accumulator that returns has put its commit under its hash. *)
Definition accAdds (acc : accumulator) : Prop :=
  ∀ c cs cs' continue, acc c cs = Ok (cs', continue) → cs' !! Hash c = Some c.

(** [kept acc s evs s']: the result map changed at most under the hashes
    [evs] shows going to the accumulator, and holds each of those commits
    if the accumulator adds whatever it is given. *)
Definition kept (acc : accumulator) (s : walkState) (evs : list logEvent)
    (s' : walkState) : Prop :=
  (∀ h, h ∉ accumulated evs → commits s' !! h = commits s !! h) ∧
  (accAdds acc →
   ∀ c, RunningAccumulator c ∈ evs → commits s' !! Hash c = Some c).

(** What one patch contributes to each list of the change list. *)
Definition patchAdded (patch : option string * option string) : list string :=
  match patch with
  | (None, Some dstFile) =>
      if Contains dstFile "vendor/" then [] else [dstFile]
  | (Some srcFile, Some dstFile) =>
      if decide (srcFile ≠ dstFile) then
        if Contains srcFile "vendor/" then [] else [dstFile]
      else []
  | _ => []
  end.

Definition patchRemoved (patch : option string * option string)
  : list string :=
  match patch with
  | (Some srcFile, None) =>
      if Contains srcFile "vendor/" then [] else [srcFile]
  | (Some srcFile, Some dstFile) =>
      if decide (srcFile ≠ dstFile) then
        if Contains srcFile "vendor/" then [] else [srcFile]
      else []
  | _ => []
  end.

Definition patchChanged (patch : option string * option string)
  : list string :=
  match patch with
  | (Some srcFile, Some dstFile) =>
      if decide (srcFile ≠ dstFile) then []
      else if Contains srcFile "vendor/" then [] else [srcFile]
  | _ => []
  end.

(** A store whose parent links form a cycle, as a corrupt one may. *)
Module Cyclic.
Definition A := mkCommit 1 [2%N] 10 withFile.
Definition B := mkCommit 2 [1%N] 20 withFile.
Definition repo : gmap N Commit := {[ 1%N := A; 2%N := B ]}.
End Cyclic.

(** ** Presentation ([cutString] and the summary of a message)

    Go strings are byte strings and [s[:l]] cuts bytes; [l] is an [int],
    never computed with here, hence an integer.  [len(s) <= l] fails for
    every negative [l], and the slice expression then panics. *)
Definition cutString (s : string) (l : Z) : outcome string :=
  if (Z.of_nat (String.length s) <=? l)%Z then Ok s
  else if (l <? 0)%Z then Panic
  else Ok (String.substring 0 (Z.to_nat l) s).

(** Modelled from the spec: [strings.Index] of Go's library, the position of
    the first occurrence, [None] for Go's -1. *)
Fixpoint Index (s substr : string) : option nat :=
  if String.prefix substr s then Some 0
  else match s with
       | EmptyString => None
       | String _ s' => S <$> Index s' substr
       end.

(** [s[k:]]. *)
Definition sliceFrom (k : nat) (s : string) : string :=
  String.substring k (String.length s - k) s.

(** Modelled from the spec: [strings.Split] of Go's library for a separator
    that is not empty, by its loop: cut at the first occurrence, go on with
    what follows it, and end with the rest.  Each turn takes at least a byte
    off, so the length of [s] is fuel enough.  (For an empty separator Go
    splits after each UTF-8 sequence; the model splits after each byte
    there, and nothing below uses that case.) *)
Fixpoint genSplit (fuel : nat) (s sep : string) : list string :=
  match fuel with
  | 0 => [s]
  | S fuel' =>
      match Index s sep with
      | None => [s]
      | Some m =>
          String.substring 0 m s :: genSplit fuel' (sliceFrom (m + String.length sep) s) sep
      end
  end.

Fixpoint explode (s : string) : list string :=
  match s with
  | EmptyString => []
  | String c s' => String c EmptyString :: explode s'
  end.

Definition Split (s sep : string) : list string :=
  match sep with
  | EmptyString => explode s
  | _ => genSplit (String.length s) s sep
  end.

(** The separator ["\n"] of the source: the byte 10. *)
Definition lineFeed : string := String (Ascii.Ascii false true false true false false false false) EmptyString.

(** [strings.Split(message, "\n")[0]], as in line 43; indexing an empty
    slice would panic. *)
Definition firstLine (message : string) : outcome string :=
  match Split message lineFeed with
  | [] => Panic
  | line :: _ => Ok line
  end.

(** The last argument of the [Printf] of line 43:
    [cutString(strings.Split(c.Message, "\n")[0], 80)]. *)
Definition summary (message : string) : outcome string :=
  line ← firstLine message; cutString line 80.

(** ** Well-formed stores

    Every parent hash of a stored commit is the hash of a stored commit,
    and no tree entry fails to load. *)
#[global] Instance treeEntry_eq_dec : EqDecision treeEntry.
Proof. solve_decision. Defined.

Definition complete (repo : gmap N Commit) : Prop :=
  map_Forall (λ _ o, Forall (λ p, p ∈ dom repo) (ParentHashes o)) repo.

Definition readable (repo : gmap N Commit) : Prop :=
  map_Forall (λ _ o, map_Forall (λ _ e, e = Blob) (Tree o)) repo.

#[global] Instance complete_dec repo : Decision (complete repo).
Proof. unfold complete. apply _. Defined.

#[global] Instance readable_dec repo : Decision (readable repo).
Proof. unfold readable. apply _. Defined.

(** The call comes back: neither [logger.Fatalf] nor a panic. *)
Definition returns {A} (r : outcome A) : Prop :=
  match r with Ok _ | OutOfFuel => True | _ => False end.

Arguments accumulateCommitsForPaths : simpl never.
Arguments walkFromEnd : simpl never.
#[local] Set Warnings "-clear-no-such-hyp".

(** * Properties of the object-store accessors *)
Section Ancestry.
Context (repo : gmap N Commit).

Lemma GetCommit_Some h c :
  GetCommit repo h = Some c →
  Hash c = h ∧ ∃ o, repo !! h = Some o ∧ ParentHashes c = ParentHashes o.
Proof.
  unfold GetCommit. destruct (repo !! h) as [o|]; [|done].
  intros [= <-]. eauto.
Qed.

Lemma GetCommit_Hash h c :
  GetCommit repo h = Some c → GetCommit repo (Hash c) = Some c.
Proof. intros H. by destruct (GetCommit_Some _ _ H) as [-> _]. Qed.

Lemma Parent_Some c i p :
  Parent repo c i = Some p →
  ParentHashes c !! i = Some (Hash p) ∧ GetCommit repo (Hash p) = Some p.
Proof.
  unfold Parent. destruct (ParentHashes c !! i) as [h|]; [|done]. simpl.
  intros H. destruct (GetCommit_Some _ _ H) as [<- _]. done.
Qed.

Lemma preorder_cons fuel target h rest met :
  preorder repo fuel target (h :: rest) met =
  if decide (h ∈ met) then preorder repo fuel target rest met
  else match GetCommit repo h with
       | None => Fatal
       | Some c =>
           if decide (h = target) then Ok true
           else match fuel with
                | 0 => OutOfFuel
                | S fuel' =>
                    preorder repo fuel' target (ParentHashes c ++ rest) ({[h]} ∪ met)
                end
       end.
Proof. by destruct fuel. Qed.

Lemma preorder_nil fuel target met : preorder repo fuel target [] met = Ok false.
Proof. by destruct fuel. Qed.

Lemma preorder_false fuel target stack met :
  target ∉ met → closedUnder repo stack met →
  preorder repo fuel target stack met = Ok false →
  ∃ met',
    met ⊆ met' ∧ (target ∉ met') ∧ closedUnder repo [] met' ∧
    (∀ h, h ∈ stack → h ∈ met').
Proof.
  revert stack met. induction fuel as [|fuel IHf]; intros stack;
    induction stack as [|h rest IHs]; intros met Ht Hc;
    rewrite ?preorder_nil, ?preorder_cons.
  all: try (intros _; exists met; split_and!; [done..|];
            by intros ? ?%elem_of_nil).
  - case_decide as Hh.
    + intros (met' & ? & ? & ? & Hin)%IHs; [|done|].
      * exists met'. split_and!; [done..|].
        intros ? [->|?]%elem_of_cons; set_solver.
      * intros h' o p ? ? ?.
        destruct (Hc h' o p) as [?|[->|?]%elem_of_cons]; auto.
    + destruct (GetCommit repo h); [|done]. by case_decide.
  - case_decide as Hh.
    + intros (met' & ? & ? & ? & Hin)%IHs; [|done|].
      * exists met'. split_and!; [done..|].
        intros ? [->|?]%elem_of_cons; set_solver.
      * intros h' o p ? ? ?.
        destruct (Hc h' o p) as [?|[->|?]%elem_of_cons]; auto.
    + destruct (GetCommit repo h) as [c|] eqn:Hg; [|done].
      case_decide as Hne; [done|].
      destruct (GetCommit_Some _ _ Hg) as (_ & o & Ho & Hp).
      intros (met' & ? & ? & ? & Hin)%IHf.
      * exists met'. split_and!; [set_solver|done|done|].
        intros ? [->|?]%elem_of_cons; [set_solver|]. apply Hin. set_solver.
      * clear -Ht Hne. set_solver.
      * intros h' o' p [->%elem_of_singleton|?]%elem_of_union Ho' Hp'.
        -- right. rewrite Hp. simplify_eq. set_solver.
        -- destruct (Hc h' o' p) as [?|[->|?]%elem_of_cons]; auto; set_solver.
Qed.

Lemma closed_ancestor c met' :
  closedUnder repo [] met' →
  ∀ other, ancestor repo c other →
  GetCommit repo (Hash other) = Some other → Hash other ∈ met' → Hash c ∈ met'.
Proof.
  intros Hc other. induction 1 as [other Heq|other i p Hp _ IH]; intros Hg Hin.
  - by rewrite <-Heq.
  - destruct (Parent_Some _ _ _ Hp) as [Hi Hgp].
    apply IH; [done|].
    destruct (GetCommit_Some _ _ Hg) as (_ & o & Ho & Hpo).
    destruct (Hc (Hash other) o (Hash p)) as [?|?%elem_of_nil]; [done..| |done|done].
    rewrite <-Hpo. by eapply list_elem_of_lookup_2.
Qed.

Lemma IsAncestor_false c other :
  GetCommit repo (Hash other) = Some other →
  IsAncestor repo c other = Ok false → ¬ ancestor repo c other.
Proof.
  intros Hg. unfold IsAncestor. case_decide as Hne; [done|].
  intros (met' & Hsub & Ht & Hc & _)%preorder_false Ha.
  - apply Ht. eapply closed_ancestor; [done..|]. set_solver.
  - set_solver.
  - intros h o p ->%elem_of_singleton Ho Hp. right.
    destruct (GetCommit_Some _ _ Hg) as (_ & o' & Ho' & ->). by simplify_eq.
Qed.

Lemma preorder_true fuel c other stack met :
  (∀ h p, h ∈ stack → GetCommit repo h = Some p →
          ancestor repo c p → ancestor repo c other) →
  preorder repo fuel (Hash c) stack met = Ok true → ancestor repo c other.
Proof.
  revert stack met. induction fuel as [|fuel IHf]; intros stack;
    induction stack as [|h rest IHs]; intros met Hinv;
    rewrite ?preorder_nil, ?preorder_cons; try done.
  - case_decide.
    + apply IHs. intros h' q ? ? ?. apply (Hinv h' q); [set_solver|done..].
    + destruct (GetCommit repo h) as [p|] eqn:Hg; [|done].
      case_decide as Heq; [|done].
      intros _. eapply Hinv; [by left|done|]. apply ancestor_self.
      by destruct (GetCommit_Some _ _ Hg) as [-> _].
  - case_decide.
    + apply IHs. intros h' q ? ? ?. apply (Hinv h' q); [set_solver|done..].
    + destruct (GetCommit repo h) as [p|] eqn:Hg; [|done]. case_decide as Heq.
      * intros _. eapply Hinv; [by left|done|]. apply ancestor_self.
        by destruct (GetCommit_Some _ _ Hg) as [-> _].
      * apply IHf. intros h' q [Hin|Hin]%elem_of_app Hq Ha.
        -- eapply Hinv; [by left|done|].
           apply list_elem_of_lookup_1 in Hin as [i Hi].
           eapply ancestor_parent; [|done]. unfold Parent. by rewrite Hi.
        -- eapply Hinv; [by right|done..].
Qed.

Lemma IsAncestor_true c other :
  IsAncestor repo c other = Ok true → ancestor repo c other.
Proof.
  unfold IsAncestor. case_decide as Heq; [intros _; by apply ancestor_self|].
  apply preorder_true. intros h p [i Hi]%list_elem_of_lookup_1 Hp Ha.
  eapply ancestor_parent; [|done]. unfold Parent. by rewrite Hi.
Qed.

Lemma preorder_fuel fuel target stack met :
  size (dom repo ∖ met) ≤ fuel →
  preorder repo fuel target stack met ≠ OutOfFuel.
Proof.
  revert stack met. induction fuel as [|fuel IHf]; intros stack;
    induction stack as [|h rest IHs]; intros met Hsz;
    rewrite ?preorder_nil, ?preorder_cons; try done.
  - case_decide; [by apply IHs|].
    destruct (GetCommit repo h) as [p|] eqn:Hg; [|done]. case_decide; [done|].
    destruct (GetCommit_Some _ _ Hg) as (_ & o & Ho & _).
    assert (h ∈ dom repo ∖ met) as Hin
      by (apply elem_of_difference; split; [by apply elem_of_dom|done]).
    assert (size (dom repo ∖ met) ≠ 0); [|lia].
    apply size_non_empty_iff. intros He. rewrite He in Hin.
    by apply not_elem_of_empty in Hin.
  - case_decide; [by apply IHs|].
    destruct (GetCommit repo h) as [p|] eqn:Hg; [|done]. case_decide; [done|].
    destruct (GetCommit_Some _ _ Hg) as (_ & o & Ho & _).
    apply IHf.
    assert (h ∈ dom repo ∖ met) as Hin
      by (apply elem_of_difference; split; [by apply elem_of_dom|done]).
    assert (dom repo ∖ met = {[h]} ∪ dom repo ∖ ({[h]} ∪ met)) as Heq.
    { apply set_eq. intros x. destruct (decide (x = h)); set_solver. }
    rewrite Heq, size_union, size_singleton in Hsz by set_solver. lia.
Qed.

Lemma IsAncestor_total c other : IsAncestor repo c other ≠ OutOfFuel.
Proof.
  unfold IsAncestor. case_decide; [done|]. apply preorder_fuel.
  rewrite <-size_dom. apply subseteq_size. set_solver.
Qed.

End Ancestry.

(** * The status tracker *)

Lemma copyMap_id m : copyMap m = m.
Proof.
  unfold copyMap. apply (map_fold_weak_ind (λ r m, r = m)); [done|].
  by intros i x m' r _ ->.
Qed.

Lemma updateStatuses_fold current s0 m :
  match map_fold (λ path status r, st ← r; updateStatus current path status st)
          (Ok (s0, false)) m with
  | Ok (s', process) =>
      (∀ path, s' !! path =
         match m !! path, File current path with
         | Some fileStatusSeeking, FileFound
         | Some fileStatusFound, FileFound => Some fileStatusFound
         | Some fileStatusFound, ErrFileNotFound => Some fileStatusRemoved
         | _, _ => s0 !! path
         end) ∧
      (process = true ↔ interesting current m) ∧ ¬ unreadable current m
  | Fatal => unreadable current m
  | _ => False
  end.
Proof.
  apply (map_fold_weak_ind (λ r m,
    match r with
    | Ok (s', process) =>
        (∀ path, s' !! path =
           match m !! path, File current path with
           | Some fileStatusSeeking, FileFound
           | Some fileStatusFound, FileFound => Some fileStatusFound
           | Some fileStatusFound, ErrFileNotFound => Some fileStatusRemoved
           | _, _ => s0 !! path
           end) ∧
        (process = true ↔ interesting current m) ∧ ¬ unreadable current m
    | Fatal => unreadable current m
    | _ => False
    end)); clear m.
  - split_and!.
    + intros path. by rewrite lookup_empty.
    + split; [done|]. intros (? & ? & ? & _). by rewrite lookup_empty in *.
    + intros (? & ? & ? & _). by rewrite lookup_empty in *.
  - intros i x m r Hi IH.
    assert (∀ P : string → fileStatus → Prop,
      (∃ path status, <[i:=x]> m !! path = Some status ∧ P path status) ↔
      P i x ∨ ∃ path status, m !! path = Some status ∧ P path status) as Hex.
    { intros P. split.
      - intros (path & status & Hl & HP).
        destruct (decide (path = i)) as [->|Hne].
        + rewrite lookup_insert_eq in Hl. simplify_eq. by left.
        + rewrite lookup_insert_ne in Hl by done. right; eauto.
      - intros [HP|(path & status & Hl & HP)].
        + exists i, x. by rewrite lookup_insert_eq.
        + exists path, status. rewrite lookup_insert_ne; [done|].
          by intros ->; simplify_eq. }
    destruct r as [[s' process]| | |]; simpl; [|try done..].
    + destruct IH as (Hs & Hp & Hu).
      assert (∀ path, path ≠ i → <[i:=x]> m !! path = m !! path) as Hother
        by (intros; by apply lookup_insert_ne).
      unfold updateStatus, interesting, unreadable.
      destruct x; simpl; destruct (File current i) eqn:Hf; simpl.
      all: rewrite
        ?(Hex (λ path status,
                 status ≠ fileStatusRemoved ∧ File current path = FileFound)),
        ?(Hex (λ path status,
                 status ≠ fileStatusRemoved ∧ File current path = ErrOther)).
      all: try (left; split; [done|done]).
      all: split_and!;
        [ intros path; destruct (decide (path = i)) as [->|Hne];
          [ rewrite ?lookup_insert_eq, ?Hf; try done; rewrite Hs, Hi; done
          | rewrite ?lookup_insert_ne by done; apply Hs ]
        | first [ by (split; [intros _; left|])
                | rewrite Hp; split; [by right|intros [[? ?]|?]; [congruence|done]] ]
        | intros [[? ?]|?]; [congruence|by apply Hu] ].
    + unfold unreadable.
      rewrite (Hex (λ path status,
                      status ≠ fileStatusRemoved ∧ File current path = ErrOther)).
      by right.
Qed.

(** * The walk *)

Section Walk.
Context (repo : gmap N Commit) (beginCommit endCommit : Commit).
Abbreviation walk := (accumulateCommitsForPaths repo beginCommit).

Lemma forEach_ext {A S} (body body' : A → S → outcome S) l s :
  (∀ x s, x ∈ l → body x s = body' x s) →
  forEach body l s = forEach body' l s.
Proof.
  revert s. induction l as [|x l IH]; intros s Hext; simpl; [done|].
  rewrite Hext by (by left). destruct (body' x s); simpl; [|done..].
  apply IH. intros ???. apply Hext. by right.
Qed.

Lemma forEach_Ok {A S} (R : S → S → Prop) (body : A → S → outcome S) l :
  (∀ s, R s s) → (∀ s1 s2 s3, R s1 s2 → R s2 s3 → R s1 s3) →
  (∀ x s s', x ∈ l → body x s = Ok s' → R s s') →
  ∀ s s', forEach body l s = Ok s' → R s s'.
Proof.
  intros Hrefl Htrans. induction l as [|x l IH]; intros Hbody s s'; simpl.
  - by intros [= <-].
  - destruct (body x s) as [s1| | |] eqn:Hx; simpl; [|done..]. intros Hl.
    eapply Htrans; [eapply Hbody; [by left|done]|].
    eapply IH; [|done]. intros ?????. eapply Hbody; [by right|done].
Qed.

Lemma forEach_Ok_each {A S} (body : A → S → outcome S) l s s' :
  forEach body l s = Ok s' → ∀ x, x ∈ l → ∃ s1 s2, body x s1 = Ok s2.
Proof.
  revert s.
  induction l as [|y l IH]; intros s; simpl; [by intros _ ? ?%elem_of_nil|].
  destruct (body y s) as [s1| | |] eqn:Hy; simpl; [|done..].
  intros Hl x [->|Hin]%elem_of_cons; eauto.
Qed.

Lemma walk_unfold fuel acc cur m s :
  walk (S fuel) acc (Some cur) m s =
  if decide (Hash cur ∈ seen s) then Ok (logged (AlreadyProcessed cur) s)
  else
    if decide (NumParents cur = 1) then
      '(m', process) ← updateStatuses cur m;
      '(s', continue) ←
        (if process : bool
         then runAccumulator acc cur (logged (Considering cur) (markSeen cur s))
         else Ok (logged (Considering cur) (markSeen cur s), true));
      if continue : bool then walk fuel acc (Parent repo cur 0) m' s'
      else Ok (logged (BailingOut cur) s')
    else
      forEach (visitParent repo beginCommit (walk fuel acc) cur m)
        (seq 0 (NumParents cur))
        (logged (if decide (NumParents cur = 0) then ReachedRoot cur
                 else ConsideringMerge cur) (markSeen cur s)).
Proof. reflexivity. Qed.

Lemma walk_Ok_inv fuel acc current m s s' :
  walk fuel acc current m s = Ok s' →
  ∃ fuel' cur, fuel = S fuel' ∧ current = Some cur ∧
    ((Hash cur ∈ seen s ∧ s' = logged (AlreadyProcessed cur) s) ∨
     ((Hash cur ∉ seen s) ∧ NumParents cur = 1 ∧
      ∃ m' process s1 continue,
        updateStatuses cur m = Ok (m', process) ∧
        (if process : bool
         then runAccumulator acc cur (logged (Considering cur) (markSeen cur s))
         else Ok (logged (Considering cur) (markSeen cur s), true))
        = Ok (s1, continue) ∧
        if continue : bool then walk fuel' acc (Parent repo cur 0) m' s1 = Ok s'
        else s' = logged (BailingOut cur) s1) ∨
     ((Hash cur ∉ seen s) ∧ NumParents cur ≠ 1 ∧
      forEach (visitParent repo beginCommit (walk fuel' acc) cur m)
        (seq 0 (NumParents cur))
        (logged (if decide (NumParents cur = 0) then ReachedRoot cur
                 else ConsideringMerge cur) (markSeen cur s)) = Ok s')).
Proof.
  destruct fuel as [|fuel']; [done|]. destruct current as [cur|]; [|done].
  rewrite walk_unfold. intros H. exists fuel', cur. split_and!; [done..|].
  case_decide as Hs; [left; by simplify_eq|]. right.
  case_decide as Hn; [left|right; done]. split_and!; [done..|].
  destruct (updateStatuses cur m) as [[m' process]| | |]; simpl in H; [|done..].
  exists m', process.
  destruct (if process then _ else _) as [[s1 continue]| | |]; simpl in H; [|done..].
  exists s1, continue. split_and!; [done..|]. destruct continue; by simplify_eq.
Qed.

Lemma visitParent_Ok_inv w cur m idx s s' :
  visitParent repo beginCommit w cur m idx s = Ok s' →
  ∃ p b, Parent repo cur idx = Some p ∧ IsAncestor repo p beginCommit = Ok b ∧
    (((branchProcess p m = false ∨ b = true) ∧ s' = s) ∨
     (branchProcess p m = true ∧ b = false ∧ w (Some p) (copyMap m) s = Ok s')).
Proof.
  unfold visitParent. destruct (Parent repo cur idx) as [p|]; [|done].
  destruct (IsAncestor repo p beginCommit) as [b| | |] eqn:Hb; simpl; [|done..].
  intros H. exists p, b. split_and!; [done..|].
  destruct (branchProcess p m); simpl in H; [|left; split; [by left|by simplify_eq]].
  destruct b; [left; split; [by right|by simplify_eq]|by right].
Qed.

Lemma runAccumulator_Ok_inv acc cur s s1 continue :
  runAccumulator acc cur s = Ok (s1, continue) →
  ∃ cs', acc cur (commits s) = Ok (cs', continue) ∧
    s1 = mkWalkState (seen s) cs' (debugLog s ++ [RunningAccumulator cur]).
Proof.
  unfold runAccumulator. simpl.
  destruct (acc cur (commits s)) as [[cs' c]| | |]; simpl; [|done..].
  intros [= <- <-]. eauto.
Qed.

End Walk.

Section WalkLog.
Context (repo : gmap N Commit) (beginCommit endCommit : Commit).
Abbreviation walk := (accumulateCommitsForPaths repo beginCommit).

Lemma visits_app evs1 evs2 : visits (evs1 ++ evs2) = visits evs1 ++ visits evs2.
Proof. unfold visits. by rewrite omap_app, fmap_app. Qed.

Lemma accumulated_app evs1 evs2 :
  accumulated (evs1 ++ evs2) = accumulated evs1 ++ accumulated evs2.
Proof. unfold accumulated. by rewrite omap_app, fmap_app. Qed.

Lemma walked_refl s : walked repo s [] s.
Proof.
  unfold walked. simpl. rewrite app_nil_r. split_and!; try done.
  - set_solver.
  - constructor.
  - intros ? ?%elem_of_nil. done.
Qed.

Lemma walked_app s1 evs1 s2 evs2 s3 :
  walked repo s1 evs1 s2 → walked repo s2 evs2 s3 →
  walked repo s1 (evs1 ++ evs2) s3.
Proof.
  intros (Hl1 & Hs1 & Hn1 & Hd1 & Ha1 & Hf1) (Hl2 & Hs2 & Hn2 & Hd2 & Ha2 & Hf2).
  unfold walked. rewrite visits_app, accumulated_app. split_and!.
  - by rewrite Hl2, Hl1, app_assoc.
  - rewrite Hs2, Hs1, list_to_set_app_L. set_solver.
  - apply NoDup_app. split_and!; [done| |done].
    intros h Hh Hh2. apply (Hd2 h Hh2). rewrite Hs1. set_solver.
  - intros h [Hh|Hh]%elem_of_app; [by apply Hd1|].
    intros Hin. apply (Hd2 h Hh). rewrite Hs1. set_solver.
  - by apply sublist_app.
  - by apply Forall_app.
Qed.

Lemma walked_skip cur s :
  walked repo s [AlreadyProcessed cur] (logged (AlreadyProcessed cur) s).
Proof.
  unfold walked. simpl. split_and!; try done.
  - set_solver.
  - constructor.
  - intros ? ?%elem_of_nil. done.
  - by repeat constructor.
Qed.

Lemma walked_bail cur s :
  NumParents cur = 1 →
  walked repo s [BailingOut cur] (logged (BailingOut cur) s).
Proof.
  intros Hn. unfold walked. simpl. split_and!; try done.
  - set_solver.
  - constructor.
  - intros ? ?%elem_of_nil. done.
  - by repeat constructor.
Qed.

Lemma walked_visit e cur s :
  visitOf e = Some cur → accumulatedOf e = None → eventOk repo e →
  Hash cur ∉ seen s →
  walked repo s [e] (logged e (markSeen cur s)).
Proof.
  intros Hv Ha He Hs. unfold walked, visits, accumulated. simpl. rewrite Hv, Ha.
  simpl.
  split_and!; try done.
  - set_solver.
  - apply NoDup_singleton.
  - by intros h ->%list_elem_of_singleton.
  - apply sublist_nil_l.
  - by repeat constructor.
Qed.

Lemma walked_accumulate cur s cs' :
  NumParents cur = 1 → Hash cur ∉ seen s →
  walked repo s [Considering cur; RunningAccumulator cur]
    (mkWalkState ({[Hash cur]} ∪ seen s) cs'
       ((debugLog s ++ [Considering cur]) ++ [RunningAccumulator cur])).
Proof.
  intros Hn Hs. unfold walked, visits, accumulated. simpl. split_and!; try done.
  - by rewrite <-app_assoc.
  - set_solver.
  - apply NoDup_singleton.
  - by intros h ->%list_elem_of_singleton.
  - by repeat constructor.
Qed.

Lemma parentsResolved_app evs1 evs2 :
  parentsResolved repo evs1 → parentsResolved repo evs2 →
  parentsResolved repo (evs1 ++ evs2).
Proof.
  intros H1 H2 c [Hc|Hc]%elem_of_app.
  - destruct (H1 c Hc) as [?|?]; [left|by right]. apply elem_of_app. by left.
  - destruct (H2 c Hc) as [?|?]; [left|by right]. apply elem_of_app. by right.
Qed.

Lemma walk_log fuel acc current m s s' :
  walk fuel acc current m s = Ok s' →
  ∃ evs, walked repo s evs s' ∧ parentsResolved repo evs.
Proof.
  revert current m s s'. induction fuel as [|fuel IH]; intros current m s s' Hw;
    apply walk_Ok_inv in Hw as (fuel' & cur & Hfuel & -> & Hcases); [done|].
  injection Hfuel as <-.
  destruct Hcases as
    [(Hs & ->)|[(Hs & Hn & m' & process & s1 & continue & Hu & Hacc & Hc)
                                 |(Hs & Hn & Hfe)]].
  - exists [AlreadyProcessed cur]. split; [apply walked_skip|].
    intros c Hc. by apply list_elem_of_singleton in Hc.
  - (* the fast path *)
    assert (∃ evs1, walked repo s (Considering cur :: evs1) s1 ∧
                    ∀ c, Considering c ∉ evs1) as (evs1 & Hw1 & Hno1).
    { destruct process.
      - apply runAccumulator_Ok_inv in Hacc as (cs' & _ & ->). simpl.
        exists [RunningAccumulator cur]. split; [by apply walked_accumulate|].
        intros c Hin. by apply list_elem_of_singleton in Hin.
      - injection Hacc as <- <-. exists []. split; [by apply walked_visit|].
        intros c Hin. by apply elem_of_nil in Hin. }
    destruct continue.
    + pose proof Hc as Hc'. apply walk_Ok_inv in Hc' as (_ & p & _ & Hp & _).
      apply IH in Hc as (evs2 & Hw2 & Hr2).
      exists ((Considering cur :: evs1) ++ evs2).
      split; [by eapply walked_app|].
      intros c [[Hin|Hin]%elem_of_cons|Hin]%elem_of_app.
      * injection Hin as ->. right. by rewrite Hp.
      * by apply Hno1 in Hin.
      * destruct (Hr2 c Hin) as [?|?]; [left|by right]. apply elem_of_app.
        by right.
    + subst s'. exists ((Considering cur :: evs1) ++ [BailingOut cur]).
      split; [eapply walked_app; [done|by apply walked_bail]|].
      intros c [[Hin|Hin]%elem_of_cons|Hin]%elem_of_app.
      * injection Hin as ->. left. apply elem_of_app. right. by left.
      * by apply Hno1 in Hin.
      * by apply list_elem_of_singleton in Hin.
  - (* root or merge *)
    set (e := if decide (NumParents cur = 0) then ReachedRoot cur
              else ConsideringMerge cur) in *.
    assert (walked repo s [e] (logged e (markSeen cur s))) as Hw1.
    { apply walked_visit; [by unfold e; case_decide|by unfold e; case_decide| |done].
      unfold e. case_decide as H0; simpl; [done|]. split; [lia|].
      intros idx Hidx.
      destruct (forEach_Ok_each _ _ _ _ Hfe idx) as (sa & sb & Hv).
      { apply elem_of_seq. lia. }
      apply visitParent_Ok_inv in Hv as (p & _ & -> & _). eauto. }
    apply (forEach_Ok (λ s s', ∃ evs, walked repo s evs s' ∧ parentsResolved repo evs))
      in Hfe as (evs2 & Hw2 & Hr2).
    + exists ([e] ++ evs2). split; [by eapply walked_app|].
      apply parentsResolved_app; [|done].
      intros c Hc%list_elem_of_singleton. unfold e in Hc. by case_decide.
    + intros s0. exists []. split; [apply walked_refl|]. intros c Hc.
      by apply elem_of_nil in Hc.
    + intros sa sb sc (ea & Ha & Hra) (eb & Hb & Hrb). exists (ea ++ eb).
      split; [by eapply walked_app|by apply parentsResolved_app].
    + intros idx sa sb _ Hv.
      apply visitParent_Ok_inv in Hv as (p & b & _ & _ & [[_ ->]|(_ & _ & Hrec)]).
      * exists []. split; [apply walked_refl|]. intros c Hc.
        by apply elem_of_nil in Hc.
      * by apply IH in Hrec.
Qed.

End WalkLog.

Section WalkFacts.
Context (repo : gmap N Commit) (beginCommit endCommit : Commit).
Abbreviation walk := (accumulateCommitsForPaths repo beginCommit).

Lemma walk_seen_mono fuel acc current m s s' :
  walk fuel acc current m s = Ok s' → seen s ⊆ seen s'.
Proof.
  intros (evs & Hw & _)%walk_log. destruct Hw as (_ & -> & _). set_solver.
Qed.

Lemma updateStatuses_outcome current m :
  (∃ m' process, updateStatuses current m = Ok (m', process)) ∨
  updateStatuses current m = Fatal.
Proof.
  pose proof (updateStatuses_fold current m m) as H. unfold updateStatuses.
  destruct (map_fold _ _ _) as [[m' process]| | |]; [left; eauto|by right|done..].
Qed.

Lemma forEach_fuel {A S} (I : S → Prop) (body : A → S → outcome S) l :
  (∀ x s, x ∈ l → I s → body x s ≠ OutOfFuel ∧ ∀ s', body x s = Ok s' → I s') →
  ∀ s, I s → forEach body l s ≠ OutOfFuel.
Proof.
  induction l as [|x l IH]; intros Hbody s Hs; simpl; [done|].
  destruct (Hbody x s) as [Hne Hok]; [by left|done|].
  destruct (body x s) as [s1| | |]; simpl; try done.
  apply IH; [|by apply Hok]. intros ????. apply Hbody; [by right|done].
Qed.

Lemma walk_total fuel acc current m s :
  (∀ c cs, acc c cs ≠ OutOfFuel) →
  (∀ c, current = Some c → Hash c ∈ dom repo) →
  size (dom repo ∖ seen s) < fuel →
  walk fuel acc current m s ≠ OutOfFuel.
Proof.
  intros Hacc. revert current m s.
  induction fuel as [|fuel IH]; intros current m s Hcur Hsz; [lia|].
  destruct current as [cur|]; [|done]. rewrite walk_unfold.
  case_decide as Hs; [done|].
  assert (size (dom repo ∖ ({[Hash cur]} ∪ seen s)) < fuel) as Hsz'.
  { assert (Hash cur ∈ dom repo ∖ seen s) as Hin
      by (apply elem_of_difference; split; [by apply Hcur|done]).
    assert (dom repo ∖ seen s
            = {[Hash cur]} ∪ dom repo ∖ ({[Hash cur]} ∪ seen s)) as Heq.
    { apply set_eq. intros x. destruct (decide (x = Hash cur)); set_solver. }
    rewrite Heq, size_union, size_singleton in Hsz by set_solver. lia. }
  case_decide as Hn.
  - destruct (updateStatuses_outcome cur m) as [(m' & process & ->)| ->]; [|done].
    simpl.
    assert (∀ r : outcome (walkState * bool),
      r ≠ OutOfFuel → (∀ s1 c, r = Ok (s1, c) → seen s1 = {[Hash cur]} ∪ seen s) →
      ('(s', continue) ← r;
       if continue : bool then walk fuel acc (Parent repo cur 0) m' s'
       else Ok (logged (BailingOut cur) s')) ≠ OutOfFuel) as Hgo.
    { intros [[s1 c]| | |] Hne Hseen; simpl; try done. destruct c; [|done].
      apply IH; [|by rewrite (Hseen s1 true)].
      intros p [_ (_ & o & Ho & _)%GetCommit_Some]%Parent_Some.
      by apply elem_of_dom. }
    destruct process; apply Hgo.
    + unfold runAccumulator. simpl. pose proof (Hacc cur (commits s)).
      by destruct (acc cur (commits s)) as [[??]| | |].
    + intros s1 c (cs' & _ & ->)%runAccumulator_Ok_inv. done.
    + done.
    + by intros s1 c [= <- <-].
  - apply (forEach_fuel (λ s', size (dom repo ∖ seen s') < fuel)); [|done].
    intros idx sa _ Hsa. unfold visitParent.
    destruct (Parent repo cur idx) as [p|] eqn:Hp; [|done].
    pose proof (IsAncestor_total repo p beginCommit) as Htot.
    destruct (IsAncestor repo p beginCommit) as [b| | |]; simpl; try done.
    destruct (branchProcess p m); simpl; [|by split; [|intros ? [= <-]]].
    destruct b; [by split; [|intros ? [= <-]]|].
    split.
    + apply IH; [|done].
      intros ? [= <-].
      apply Parent_Some in Hp as [_ (_ & o & Ho & _)%GetCommit_Some].
      by apply elem_of_dom.
    + intros s' Hs'%walk_seen_mono.
      eapply Nat.le_lt_trans; [|done]. apply subseteq_size. set_solver.
Qed.

Lemma walk_acc_ext fuel acc acc' current m s :
  (∀ c cs, NumParents c = 1 → acc c cs = acc' c cs) →
  walk fuel acc current m s = walk fuel acc' current m s.
Proof.
  intros Hext. revert current m s.
  induction fuel as [|fuel IH]; intros current m s; [done|].
  destruct current as [cur|]; [|done]. rewrite !walk_unfold.
  case_decide as Hs; [done|]. case_decide as Hn.
  - destruct (updateStatuses cur m) as [[m' process]| | |]; simpl; try done.
    unfold runAccumulator. rewrite (Hext cur) by done.
    destruct process; simpl.
    + destruct (acc' cur _) as [[cs' c]| | |]; simpl; try done.
      destruct c; [apply IH|done].
    + apply IH.
  - apply forEach_ext. intros idx sa _. unfold visitParent.
    destruct (Parent repo cur idx) as [p|]; [|done].
    destruct (IsAncestor repo p beginCommit) as [b| | |]; simpl; try done.
    destruct (branchProcess p m); simpl; [|done]. destruct b; [done|apply IH].
Qed.

Lemma addAlways_inserts : accInserts addAlways.
Proof.
  intros c cs cs' continue [= <- <-] h x.
  destruct (decide (h = Hash c)) as [->|Hne].
  - rewrite lookup_insert_eq. intros [= <-]. by right.
  - rewrite lookup_insert_ne by done. by left.
Qed.

Lemma addIfNotAncestor_inserts base : accInserts (addIfNotAncestor repo base).
Proof.
  intros c cs cs' continue. unfold addIfNotAncestor.
  destruct (IsAncestor repo c base) as [b| | |]; simpl; try done.
  destruct b; simpl; intros [= <- <-] h x; [by left|].
  destruct (decide (h = Hash c)) as [->|Hne].
  - rewrite lookup_insert_eq. intros [= <-]. by right.
  - rewrite lookup_insert_ne by done. by left.
Qed.

Lemma walk_commits fuel acc cur m s s' :
  accInserts acc →
  walk fuel acc (Some cur) m s = Ok s' →
  ∀ h x, commits s' !! h = Some x →
    commits s !! h = Some x ∨
    (h = Hash x ∧ NumParents x = 1 ∧ ancestor repo x cur).
Proof.
  intros Hacc. revert cur m s s'.
  induction fuel as [|fuel IH]; intros cur0 m s s' Hw;
    apply walk_Ok_inv in Hw as (fuel' & cur & Hfuel & Hcur & Hcases); [done|].
  injection Hfuel as <-. injection Hcur as <-.
  destruct Hcases as
    [(Hs & ->)|[(Hs & Hn & m' & process & s1 & continue & Hu & Ha & Hc)
                                 |(Hs & Hn & Hfe)]].
  - intros h x Hx. by left.
  - assert (∀ h x, commits s1 !! h = Some x →
              commits s !! h = Some x ∨ (x = cur0 ∧ h = Hash cur0)) as H1.
    { destruct process.
      - apply runAccumulator_Ok_inv in Ha as (cs' & Ha & ->). simpl.
        intros h x Hx. by eapply Hacc.
      - injection Ha as <- <-. intros h x Hx. by left. }
    assert (∀ h x, commits s1 !! h = Some x →
      commits s !! h = Some x ∨
      (h = Hash x ∧ NumParents x = 1 ∧ ancestor repo x cur0)) as H1'.
    { intros h x [?|[-> ->]]%H1; [by left|right].
      split_and!; [done..|by apply ancestor_self]. }
    destruct continue; [|by subst s'].
    destruct (Parent repo cur0 0) as [p|] eqn:Hp;
      [|by apply walk_Ok_inv in Hc as (? & ? & _ & ? & _)].
    intros h x [Hx|(Hx0 & Hx1 & Hx2)]%(IH _ _ _ _ Hc); [by apply H1'|right].
    split_and!; [done..|]. by eapply ancestor_parent.
  - refine (forEach_Ok (λ s s', ∀ h x, commits s' !! h = Some x →
      commits s !! h = Some x ∨
      (h = Hash x ∧ NumParents x = 1 ∧ ancestor repo x cur0))
      _ _ _ _ _ _ _ Hfe).
    + intros ????. by left.
    + intros sa sb sc Hab Hbc h x [?|?]%Hbc; [by apply Hab|by right].
    + intros idx sa sb _ Hv.
      apply visitParent_Ok_inv in Hv as (p & b & Hp & _ & [[_ ->]|(_ & _ & Hrec)]).
      * intros ???. by left.
      * intros h x [Hx|(Hx0 & Hx1 & Hx2)]%(IH _ _ _ _ Hrec); [by left|right].
        split_and!; [done..|]. by eapply ancestor_parent.
Qed.

Lemma ancestor_Parent base cur i p :
  GetCommit repo (Hash base) = Some base →
  GetCommit repo (Hash cur) = Some cur →
  ancestor repo cur base → Parent repo cur i = Some p → ancestor repo p base.
Proof.
  intros Hb Hc Ha Hp. induction Ha as [base Heq|base j q Hq _ IH].
  - assert (base = cur) as -> by (rewrite Heq in Hb; congruence).
    eapply ancestor_parent; [done|]. by apply ancestor_self.
  - eapply ancestor_parent; [done|]. apply IH.
    by apply Parent_Some in Hq as [_ ?].
Qed.

Lemma gated_walk_adds_nothing base fuel current m s s' :
  GetCommit repo (Hash base) = Some base →
  (∀ cur, current = Some cur →
     GetCommit repo (Hash cur) = Some cur ∧ ancestor repo cur base) →
  walk fuel (addIfNotAncestor repo base) current m s = Ok s' →
  commits s' = commits s.
Proof.
  intros Hb. revert current m s s'.
  induction fuel as [|fuel IH]; intros current m s s' Hcur Hw;
    apply walk_Ok_inv in Hw as (fuel' & cur & Hfuel & -> & Hcases); [done|].
  injection Hfuel as <-. destruct (Hcur cur eq_refl) as [Hin Hanc].
  destruct Hcases as
    [(Hs & ->)|[(Hs & Hn & m' & process & s1 & continue & Hu & Ha & Hc)
                                 |(Hs & Hn & Hfe)]].
  - done.
  - destruct process.
    + apply runAccumulator_Ok_inv in Ha as (cs' & Ha & ->). simpl in Ha.
      unfold addIfNotAncestor in Ha.
      destruct (IsAncestor repo cur base) as [b| | |] eqn:Hia; simpl in Ha; try done.
      destruct b; simpl in Ha; [|by apply IsAncestor_false in Hia].
      injection Ha as <- <-. by subst s'.
    + injection Ha as <- <-. simpl in Hc.
      apply IH in Hc; [done|]. intros p Hp. split.
      * by apply Parent_Some in Hp as [_ ?].
      * by eapply ancestor_Parent.
  - apply (forEach_Ok (λ s s', commits s' = commits s)) in Hfe.
    + done.
    + done.
    + intros sa sb sc Hab Hbc. congruence.
    + intros idx sa sb _ Hv.
      apply visitParent_Ok_inv in Hv
        as (p & b & Hp & _ & [[_ ->]|(_ & _ & Hrec)]); [done|].
      apply IH in Hrec; [done|]. intros ? [= <-]. split.
      * by apply Parent_Some in Hp as [_ ?].
      * by eapply ancestor_Parent.
Qed.

End WalkFacts.

(** * Removed paths *)

Section Removed.
Context (repo : gmap N Commit) (beginCommit endCommit : Commit).
Abbreviation walk := (accumulateCommitsForPaths repo beginCommit).

Lemma branchProcess_spec p m :
  branchProcess p m = true ↔ seekingOrPresent p m.
Proof.
  unfold branchProcess, seekingOrPresent, interesting.
  apply (map_fold_weak_ind (λ r m, r = true ↔
    (∃ path status, m !! path = Some status ∧ status ≠ fileStatusRemoved ∧
                    File p path = FileFound) ∨
    ∃ path, m !! path = Some fileStatusSeeking)); clear m.
  - split; [done|].
    intros [(? & ? & H & _)|(? & H)]; by rewrite lookup_empty in H.
  - intros i x m r Hi IH. rewrite orb_true_iff, IH. clear IH. split.
    + intros [[(path & status & Hl & ?)|(path & Hl)]|Hx].
      * left. exists path, status. rewrite lookup_insert_ne; [done|].
        by intros ->; simplify_eq.
      * right. exists path. rewrite lookup_insert_ne; [done|].
        by intros ->; simplify_eq.
      * case_decide as Hr; [done|]. apply orb_true_iff in Hx as [Hx|Hx].
        -- left. exists i, x. rewrite lookup_insert_eq.
           by apply bool_decide_eq_true in Hx.
        -- right. exists i. rewrite lookup_insert_eq.
           by apply bool_decide_eq_true in Hx as ->.
    + intros [(path & status & Hl & Hs & Hf)|(path & Hl)].
      * destruct (decide (path = i)) as [->|Hne].
        -- rewrite lookup_insert_eq in Hl. simplify_eq. right.
           rewrite decide_False by done. apply orb_true_iff. left.
           by apply bool_decide_eq_true.
        -- rewrite lookup_insert_ne in Hl by done. left; left; eauto.
      * destruct (decide (path = i)) as [->|Hne].
        -- rewrite lookup_insert_eq in Hl. simplify_eq. right.
           rewrite decide_False by done. apply orb_true_iff. right.
           by apply bool_decide_eq_true.
        -- rewrite lookup_insert_ne in Hl by done. left; right; eauto.
Qed.

Lemma interesting_delete c m path :
  m !! path = Some fileStatusRemoved →
  interesting c (delete path m) ↔ interesting c m.
Proof.
  intros Hr. unfold interesting.
  split; intros (q & status & Hl & Hs & Hf); exists q, status.
  - apply lookup_delete_Some in Hl as [? ?]. done.
  - split_and!; [|done..]. apply lookup_delete_Some. split; [|done]. intros ->.
    congruence.
Qed.

Lemma unreadable_delete c m path :
  m !! path = Some fileStatusRemoved →
  unreadable c (delete path m) ↔ unreadable c m.
Proof.
  intros Hr. unfold unreadable.
  split; intros (q & status & Hl & Hs & Hf); exists q, status.
  - apply lookup_delete_Some in Hl as [? ?]. done.
  - split_and!; [|done..]. apply lookup_delete_Some. split; [|done]. intros ->.
    congruence.
Qed.

Lemma updateStatuses_delete c m path :
  m !! path = Some fileStatusRemoved →
  updateStatuses c (delete path m) =
  '(m', process) ← updateStatuses c m; Ok (delete path m', process).
Proof.
  intros Hr.
  pose proof (updateStatuses_fold c m m) as H1.
  pose proof (updateStatuses_fold c (delete path m) (delete path m)) as H2.
  unfold updateStatuses.
  destruct (map_fold _ _ m) as [[m1 p1]| | |];
    destruct (map_fold _ _ (delete path m)) as [[m2 p2]| | |]; simpl; try done.
  - destruct H1 as (Hm1 & Hp1 & _), H2 as (Hm2 & Hp2 & _).
    rewrite (interesting_delete _ _ _ Hr) in Hp2. f_equal. f_equal.
    + apply map_eq. intros q. rewrite Hm2.
      destruct (decide (q = path)) as [->|Hne].
      * by rewrite !lookup_delete_eq.
      * by rewrite !lookup_delete_ne, Hm1 by done.
    + assert (p1 = true ↔ p2 = true) as Hiff by (by rewrite Hp1, Hp2).
      destruct Hiff as [Ha Hb].
      destruct p1, p2; try done; [by apply Ha|symmetry; by apply Hb].
  - destruct H1 as (_ & _ & Hu). by apply unreadable_delete in H2.
  - destruct H2 as (_ & _ & Hu). destruct Hu. by apply unreadable_delete.
Qed.

Lemma updateStatuses_keeps_removed c m m' process path :
  updateStatuses c m = Ok (m', process) →
  m !! path = Some fileStatusRemoved → m' !! path = Some fileStatusRemoved.
Proof.
  intros Hu Hr. pose proof (updateStatuses_fold c m m) as H.
  unfold updateStatuses in Hu.
  rewrite Hu in H. destruct H as (Hm & _). by rewrite Hm, Hr.
Qed.

Lemma branchProcess_delete p m path :
  m !! path = Some fileStatusRemoved →
  branchProcess p (delete path m) = branchProcess p m.
Proof.
  intros Hr. apply eq_true_iff_eq. rewrite !branchProcess_spec.
  unfold seekingOrPresent. rewrite (interesting_delete _ _ _ Hr).
  split; (intros [?|(q & Hq)]; [by left|right; exists q]).
  - by apply lookup_delete_Some in Hq as [? ?].
  - apply lookup_delete_Some. split; [|done]. intros ->. congruence.
Qed.

Lemma walk_delete_removed fuel acc current m s path :
  m !! path = Some fileStatusRemoved →
  walk fuel acc current (delete path m) s = walk fuel acc current m s.
Proof.
  revert current m s.
  induction fuel as [|fuel IH]; intros current m s Hr; [done|].
  destruct current as [cur|]; [|done]. rewrite !walk_unfold.
  case_decide as Hs; [done|]. case_decide as Hn.
  - rewrite updateStatuses_delete by done.
    destruct (updateStatuses cur m) as [[m' process]| | |] eqn:Hu; simpl; try done.
    destruct (if process then _ else _) as [[s1 continue]| | |]; simpl; try done.
    destruct continue; [|done]. apply IH.
    by eapply updateStatuses_keeps_removed.
  - apply forEach_ext. intros idx sa _. unfold visitParent.
    destruct (Parent repo cur idx) as [p|]; [|done].
    rewrite branchProcess_delete by done.
    destruct (IsAncestor repo p beginCommit) as [b| | |]; simpl; try done.
    destruct (branchProcess p m); simpl; [|done]. destruct b; [done|].
    rewrite !copyMap_id. by apply IH.
Qed.

End Removed.

(** * The final sort *)

Section Sorting.

Lemma insertSorted_perm {A} (less : A → A → bool) x l :
  insertSorted less x l ≡ₚ x :: l.
Proof.
  induction l as [|y l IH]; simpl; [done|].
  destruct (less x y); [done|]. rewrite IH. apply Permutation_swap.
Qed.

Lemma sortSlice_perm {A} (less : A → A → bool) l : sortSlice less l ≡ₚ l.
Proof.
  unfold sortSlice.
  assert (∀ sorted,
    foldl (λ sorted x, insertSorted less x sorted) sorted l ≡ₚ sorted ++ l)
    as H; [|apply H].
  induction l as [|x l IH]; intros sorted; simpl; [by rewrite app_nil_r|].
  rewrite IH, insertSorted_perm. simpl. apply Permutation_middle.
Qed.

Abbreviation byWhen := (λ ci cj : Commit, Before (When ci) (When cj)).



End Sorting.

(** * The change list *)

Section ChangedFiles.

Abbreviation clean := (Forall (λ p, ¬ excluded p)).

Lemma classifyPatch_filtered patch cl cl' :
  classifyPatch patch cl = Ok cl' →
  (clean (removed cl) → clean (removed cl')) ∧
  (clean (changed cl) → clean (changed cl')).
Proof.
  unfold classifyPatch, excluded.
  destruct patch as [[src|] [dst|]]; try done;
    repeat case_decide;
    repeat match goal with
    | |- context [Contains ?p "vendor/"] => destruct (Contains p "vendor/") eqn:?
    end; intros [= <-]; simpl; split; try done;
    intros HF; apply Forall_app; (split; [done|]); repeat constructor; congruence.
Qed.

Lemma changedFiles_filtered patches cl :
  changedFiles patches = Ok cl →
  clean (removed cl) ∧ clean (changed cl).
Proof.
  unfold changedFiles. intros H.
  pose (R := λ cl cl' : changeList,
    (clean (removed cl) → clean (removed cl')) ∧
    (clean (changed cl) → clean (changed cl'))).
  assert (R (mkChangeList [] [] []) cl) as [H1 H2].
  { refine (forEach_Ok R _ _ _ _ _ _ _ H).
    - by intros c.
    - intros c1 c2 c3 [? ?] [? ?]. split; auto.
    - intros patch c1 c2 _. apply classifyPatch_filtered. }
  split; [apply H1|apply H2]; constructor.
Qed.


Lemma HasPrefix_Contains s pre : HasPrefix s pre = true → Contains s pre = true.
Proof. unfold HasPrefix. intros H. destruct s; cbn [Contains]; by rewrite H. Qed.

Lemma changedFiles_added patches cl :
  changedFiles patches = Ok cl →
  Forall (λ p, ¬ excluded p ∨
               ∃ src, (Some src, Some p) ∈ patches ∧ src ≠ p ∧ ¬ excluded src)
    (added cl).
Proof.
  unfold changedFiles. intros H.
  pose (Q := λ p, ¬ excluded p ∨
    ∃ src, (Some src, Some p) ∈ patches ∧ src ≠ p ∧ ¬ excluded src).
  pose (R := λ cl cl' : changeList, Forall Q (added cl) → Forall Q (added cl')).
  assert (R (mkChangeList [] [] []) cl) as HR; [|apply HR; constructor].
  refine (forEach_Ok R _ _ _ _ _ _ _ H).
  - intros c. unfold R. auto.
  - intros c1 c2 c3 H12 H23. unfold R in *. auto.
  - intros patch c1 c2 Hin. unfold classifyPatch, R, Q, excluded.
    destruct patch as [[src|] [dst|]]; try done;
      repeat case_decide;
      repeat match goal with
      | |- context [Contains ?p "vendor/"] => destruct (Contains p "vendor/") eqn:?
      end; intros [= <-]; simpl; try done;
      intros HF; apply Forall_app; (split; [done|]); (constructor; [|constructor]).
    + right. exists src. split_and!; [done|done|congruence].
    + left. congruence.
Qed.

End ChangedFiles.

(** * The three walks of [computeDiffCommits] *)

Section TopLevel.
Context (repo : gmap N Commit) (beginCommit endCommit : Commit).
Abbreviation walk := (accumulateCommitsForPaths repo beginCommit).

Lemma resolveCommit_Ok h c :
  resolveCommit repo h = Ok c → GetCommit repo (Hash c) = Some c.
Proof.
  unfold resolveCommit. destruct (GetCommit repo h) as [c'|] eqn:Hg; [|done].
  intros [= <-]. by eapply GetCommit_Hash.
Qed.

Lemma GetCommit_dom c : GetCommit repo (Hash c) = Some c → Hash c ∈ dom repo.
Proof. intros (_ & o & Ho & _)%GetCommit_Some. by apply elem_of_dom. Qed.

Lemma ancestor_refl c : ancestor repo c c.
Proof. by apply ancestor_self. Qed.

Lemma walk_marks_start fuel acc cur m s s' :
  walk fuel acc (Some cur) m s = Ok s' → Hash cur ∈ seen s'.
Proof.
  intros Hw. pose proof (walk_seen_mono _ _ _ _ _ _ _ _ Hw) as Hmono.
  apply walk_log in Hw as Hlog. destruct Hlog as (evs & Hwalked & _).
  apply walk_Ok_inv in Hw as (fuel' & cur' & -> & [= <-] & Hcases).
  destruct Hcases as
    [(Hs & _)|[(Hs & Hn & m' & process & s1 & continue & Hu & Ha & Hc)
                                |(Hs & Hn & Hfe)]].
  - set_solver.
  - assert (Hash cur ∈ seen s1) as H1.
    { destruct process.
      - apply runAccumulator_Ok_inv in Ha as (? & _ & ->). simpl. set_solver.
      - injection Ha as <- <-. simpl. set_solver. }
    destruct continue; [|subst s'; done].
    apply walk_seen_mono in Hc. set_solver.
  - assert (∀ sa sb,
      forEach (visitParent repo beginCommit (walk fuel' acc) cur m)
        (seq 0 (NumParents cur)) sa = Ok sb → seen sa ⊆ seen sb) as Hsub.
    { intros sa sb Hf.
      refine (forEach_Ok (λ s s', seen s ⊆ seen s') _ _ _ _ _ _ _ Hf);
        [done|set_solver|].
      intros idx sc sd _ Hv.
      apply visitParent_Ok_inv in Hv
        as (p & b & _ & _ & [[_ ->]|(_ & _ & Hrec)]); [done|].
      by eapply walk_seen_mono. }
    apply Hsub in Hfe. simpl in Hfe. set_solver.
Qed.


Lemma addIfNotAncestor_total base c cs :
  addIfNotAncestor repo base c cs ≠ OutOfFuel.
Proof.
  unfold addIfNotAncestor. pose proof (IsAncestor_total repo c base).
  destruct (IsAncestor repo c base) as [[]| | |]; done.
Qed.


Lemma collectCommits_Ok_inv cl s :
  collectCommits repo beginCommit endCommit cl = Ok s →
  ∃ s1 s2,
    walkFromEnd repo beginCommit endCommit addAlways
      (initStatuses fileStatusFound (added cl)) ∅ [] = Ok s1 ∧
    walkFromEnd repo beginCommit endCommit (addIfNotAncestor repo endCommit)
      (initStatuses fileStatusSeeking (removed cl)) (commits s1) (debugLog s1)
      = Ok s2 ∧
    walkFromEnd repo beginCommit endCommit (addIfNotAncestor repo endCommit)
      (initStatuses fileStatusFound (changed cl)) (commits s2) (debugLog s2)
      = Ok s.
Proof.
  unfold collectCommits.
  destruct (walkFromEnd _ _ _ addAlways _ _ _) as [s1| | |] eqn:H1; simpl; try done.
  destruct (walkFromEnd _ _ _ _ _ (commits s1) _) as [s2| | |] eqn:H2; simpl; try done.
  intros H3. by exists s1, s2.
Qed.

Lemma collectCommits_entries cl s h c :
  collectCommits repo beginCommit endCommit cl = Ok s →
  commits s !! h = Some c →
  h = Hash c ∧ NumParents c = 1 ∧ ancestor repo c endCommit.
Proof.
  intros (s1 & s2 & H1 & H2 & H3)%collectCommits_Ok_inv Hc.
  unfold walkFromEnd in *.
  eapply walk_commits in H3 as [H3|?]; [|done|apply addIfNotAncestor_inserts|done].
  eapply walk_commits in H2 as [H2|?]; [|done|apply addIfNotAncestor_inserts|done].
  eapply walk_commits in H1 as [H1|?]; [|done|apply addAlways_inserts|done].
  simpl in H1. by rewrite lookup_empty in H1.
Qed.

Lemma computeDiffCommits_Ok_inv rangeCommits cl l :
  computeDiffCommits repo beginCommit endCommit rangeCommits cl = Ok l →
  ∃ s, collectCommits repo beginCommit endCommit cl = Ok s ∧
       l = sortSlice (λ ci cj, Before (When ci) (When cj))
             (rangeCommits (commits s)).
Proof.
  unfold computeDiffCommits.
  destruct (collectCommits _ _ _ _) as [s| | |]; simpl; try done.
  intros [= <-]. eauto.
Qed.

Lemma computeDiffCommits_elem rangeCommits cl l c :
  rangeOrder rangeCommits →
  computeDiffCommits repo beginCommit endCommit rangeCommits cl = Ok l →
  c ∈ l →
  ∃ s h, collectCommits repo beginCommit endCommit cl = Ok s ∧
         commits s !! h = Some c.
Proof.
  intros Hr (s & Hs & ->)%computeDiffCommits_Ok_inv Hc.
  rewrite sortSlice_perm, (Hr (commits s)) in Hc.
  apply list_elem_of_fmap in Hc as ([h c'] & -> & Hin).
  apply elem_of_map_to_list in Hin. eauto.
Qed.

End TopLevel.

(** * The claims *)

(** C1.  Every commit of the sequence [computeDiffCommits] returns is an
    ancestor of the end revision; a commit that one of the two
    ancestry-gated walks (removed files, changed files) puts into the result
    map is not an ancestor of the begin revision; and a commit of the result
    that is an ancestor of the begin revision was contributed by the
    unconditional walk for the added files. *)
Theorem computeDiffCommits_window (repo : gmap N Commit)
    (beginCommit endCommit : Commit)
    (rangeCommits : gmap N Commit → list Commit) (cl : changeList)
    (l : list Commit) :
  rangeOrder rangeCommits →
  resolveCommit repo (Hash endCommit) = Ok endCommit →
  computeDiffCommits repo beginCommit endCommit rangeCommits cl = Ok l →
  (∀ c, c ∈ l → ancestor repo c endCommit) ∧
  (∀ statuses commitsSet lg s',
     walkFromEnd repo beginCommit endCommit (addIfNotAncestor repo endCommit)
       statuses commitsSet lg = Ok s' →
     ∀ h c, commits s' !! h = Some c →
       commitsSet !! h = Some c ∨ ¬ ancestor repo c beginCommit) ∧
  (∃ s1,
     walkFromEnd repo beginCommit endCommit addAlways
       (initStatuses fileStatusFound (added cl)) ∅ [] = Ok s1 ∧
     ∀ c, c ∈ l →
       ¬ ancestor repo c beginCommit ∨ commits s1 !! Hash c = Some c).
Proof.
  intros Hrange He%resolveCommit_Ok Hl.
  assert (∀ statuses commitsSet lg s',
    walkFromEnd repo beginCommit endCommit (addIfNotAncestor repo endCommit)
      statuses commitsSet lg = Ok s' → commits s' = commitsSet) as Hgated.
  { intros statuses commitsSet lg s' Hw.
    eapply gated_walk_adds_nothing in Hw; [done|done|].
    intros ? [= <-]. split; [done|apply ancestor_refl]. }
  split_and!.
  - intros c Hc.
    destruct (computeDiffCommits_elem _ _ _ _ _ _ _ Hrange Hl Hc)
      as (s & h & Hs & Hh).
    by eapply collectCommits_entries in Hh as (_ & _ & ?).
  - intros statuses commitsSet lg s' Hw h c Hc. left.
    by rewrite <-(Hgated _ _ _ _ Hw).
  - destruct (computeDiffCommits_Ok_inv _ _ _ _ _ _ Hl) as (s & Hs & _).
    destruct (collectCommits_Ok_inv _ _ _ _ _ Hs) as (s1 & s2 & H1 & H2 & H3).
    exists s1. split; [done|]. intros c Hc. right.
    destruct (computeDiffCommits_elem _ _ _ _ _ _ _ Hrange Hl Hc)
      as (s' & h & Hs' & Hh).
    assert (s' = s) as -> by congruence.
    apply Hgated in H2, H3. rewrite H3, H2 in Hh.
    unfold walkFromEnd in H1.
    destruct (walk_commits _ _ _ _ _ _ _ _ addAlways_inserts H1 h c Hh)
      as [Hin|(-> & _)]; [|done].
    simpl in Hin. by rewrite lookup_empty in Hin.
Qed.

Lemma computeDiffCommits_window_witness :
  (∀ c, c ∈ [Fork.P; Fork.E] → ancestor Fork.repo c Fork.E) ∧
  (∀ statuses commitsSet lg s',
     walkFromEnd Fork.repo Fork.B Fork.E (addIfNotAncestor Fork.repo Fork.E)
       statuses commitsSet lg = Ok s' →
     ∀ h c, commits s' !! h = Some c →
       commitsSet !! h = Some c ∨ ¬ ancestor Fork.repo c Fork.B) ∧
  (∃ s1,
     walkFromEnd Fork.repo Fork.B Fork.E addAlways
       (initStatuses fileStatusFound (added Fork.addedFile)) ∅ [] = Ok s1 ∧
     ∀ c, c ∈ [Fork.P; Fork.E] →
       ¬ ancestor Fork.repo c Fork.B ∨ commits s1 !! Hash c = Some c).
Proof.
  apply (computeDiffCommits_window Fork.repo Fork.B Fork.E valuesInOrder
           Fork.addedFile [Fork.P; Fork.E]).
  - intros m. reflexivity.
  - vm_compute. reflexivity.
  - vm_compute. reflexivity.
Defined.

(** The added-file walk does reach outside the window: in the history
    [Fork], with B the begin and E the end revision, it reports P, an
    ancestor of the begin revision. *)
Example added_walk_reports_ancestor_of_begin :
  computeDiffCommits Fork.repo Fork.B Fork.E valuesInOrder Fork.addedFile
    = Ok [Fork.P; Fork.E] ∧
  ancestor Fork.repo Fork.P Fork.B.
Proof.
  split; [vm_compute; reflexivity|].
  apply IsAncestor_true. vm_compute. reflexivity.
Qed.


(** With the begin revision as the accumulator's reference, as in the
    pruning test of the fork, the same walk reports exactly B and C. *)
Example removed_walk_gated_on_begin :
  ∃ s,
    walkFromEnd Linear.repo Linear.A Linear.D
      (addIfNotAncestor Linear.repo Linear.A)
      (initStatuses fileStatusSeeking (removed Linear.removedFile)) ∅ []
      = Ok s ∧
    commits s = {[ 2%N := Linear.B; 3%N := Linear.C ]}.
Proof.
  eexists. split; vm_compute; reflexivity.
Qed.

(** C3.  The state table of the status tracker on the fast path: for a
    commit [current] and every tracked path, Seeking and present gives Found
    and raises [process]; Seeking and absent is left alone; Found and
    present stays Found and raises [process]; Found and absent gives
    Removed; Removed is not looked at (it stays, and even an unreadable
    entry does no harm); untracked paths stay untracked; and [process] is
    raised exactly when some path that is not Removed is present. *)
Theorem updateStatuses_table (current : Commit)
    (statuses statuses' : gmap string fileStatus) (process : bool) :
  updateStatuses current statuses = Ok (statuses', process) →
  (∀ path, statuses !! path = Some fileStatusSeeking →
           File current path = FileFound →
           statuses' !! path = Some fileStatusFound ∧ process = true) ∧
  (∀ path, statuses !! path = Some fileStatusSeeking →
           File current path = ErrFileNotFound →
           statuses' !! path = Some fileStatusSeeking) ∧
  (∀ path, statuses !! path = Some fileStatusFound →
           File current path = FileFound →
           statuses' !! path = Some fileStatusFound ∧ process = true) ∧
  (∀ path, statuses !! path = Some fileStatusFound →
           File current path = ErrFileNotFound →
           statuses' !! path = Some fileStatusRemoved) ∧
  (∀ path, statuses !! path = Some fileStatusRemoved →
           statuses' !! path = Some fileStatusRemoved) ∧
  (∀ path status, statuses !! path = Some status →
           File current path = ErrOther → status = fileStatusRemoved) ∧
  (∀ path, statuses !! path = None → statuses' !! path = None) ∧
  (process = true ↔ interesting current statuses).
Proof.
  intros Hu. pose proof (updateStatuses_fold current statuses statuses) as H.
  unfold updateStatuses in Hu. rewrite Hu in H. destruct H as (Hm & Hp & Hno).
  split_and!.
  - intros path Hs Hf. split; [by rewrite Hm, Hs, Hf|].
    apply Hp. exists path, fileStatusSeeking. done.
  - intros path Hs Hf. by rewrite Hm, Hs, Hf.
  - intros path Hs Hf. split; [by rewrite Hm, Hs, Hf|].
    apply Hp. exists path, fileStatusFound. done.
  - intros path Hs Hf. by rewrite Hm, Hs, Hf.
  - intros path Hs. by rewrite Hm, Hs.
  - intros path status Hs Hf.
    destruct (decide (status = fileStatusRemoved)); [done|].
    destruct Hno. by exists path, status.
  - intros path Hs. by rewrite Hm, Hs.
  - done.
Qed.

Lemma updateStatuses_table_witness :
  updateStatuses Linear.C {[ "file.txt" := fileStatusSeeking ]}
    = Ok ({[ "file.txt" := fileStatusFound ]}, true) ∧
  (true = true ↔ interesting Linear.C {[ "file.txt" := fileStatusSeeking ]}).
Proof.
  assert (updateStatuses Linear.C {[ "file.txt" := fileStatusSeeking ]}
            = Ok ({[ "file.txt" := fileStatusFound ]}, true)) as H
    by (vm_compute; reflexivity).
  split; [exact H|].
  apply (updateStatuses_table Linear.C {[ "file.txt" := fileStatusSeeking ]}
           {[ "file.txt" := fileStatusFound ]} true H).
Defined.



(** C5.  A path whose status is Removed stays Removed through the status
    update of any commit and does not count towards its [process]; it does
    not count towards the [branchProcess] of any parent; the copy made at a
    fork has it Removed too; and the whole walk from such a map is the walk
    from the map without the path, whatever the trees of the commits met
    later contain. *)
Theorem removed_is_final (repo : gmap N Commit) (beginCommit : Commit)
    (statuses : gmap string fileStatus) (path : string) :
  statuses !! path = Some fileStatusRemoved →
  (∀ current statuses' process,
     updateStatuses current statuses = Ok (statuses', process) →
     statuses' !! path = Some fileStatusRemoved ∧
     (process = true ↔ interesting current (delete path statuses))) ∧
  (∀ p, branchProcess p statuses = branchProcess p (delete path statuses)) ∧
  copyMap statuses !! path = Some fileStatusRemoved ∧
  (∀ fuel acc current s,
     accumulateCommitsForPaths repo beginCommit fuel acc current statuses s
     = accumulateCommitsForPaths repo beginCommit fuel acc current
         (delete path statuses) s).
Proof.
  intros Hr. split_and!.
  - intros current statuses' process Hu. split.
    + by eapply updateStatuses_keeps_removed.
    + rewrite interesting_delete by done.
      pose proof (updateStatuses_fold current statuses statuses) as H.
      unfold updateStatuses in Hu. rewrite Hu in H.
      by destruct H as (_ & ? & _).
  - intros p. symmetry. by apply branchProcess_delete.
  - by rewrite copyMap_id.
  - intros fuel acc current s. symmetry. by apply walk_delete_removed.
Qed.

Lemma removed_is_final_witness :
  Reappear.removedStatus !! "file.txt" = Some fileStatusRemoved ∧
  updateStatuses Reappear.A Reappear.removedStatus
    = Ok (Reappear.removedStatus, false) ∧
  branchProcess Reappear.A Reappear.removedStatus
    = branchProcess Reappear.A (delete "file.txt" Reappear.removedStatus).
Proof.
  assert (Reappear.removedStatus !! "file.txt" = Some fileStatusRemoved) as Hr
    by (vm_compute; reflexivity).
  split_and!; [exact Hr|vm_compute; reflexivity|].
  apply (removed_is_final Reappear.repo Reappear.Q Reappear.removedStatus
           "file.txt" Hr).
Defined.

(** The file of [Reappear] is present at C, gone at B and present again at
    A: the walk from C reports C and, the path being Removed from B on, does
    not report A. *)
Example removed_path_not_reconsidered :
  ∃ s,
    walkFromEnd Reappear.repo Reappear.Q Reappear.C addAlways
      {[ "file.txt" := fileStatusFound ]} ∅ [] = Ok s ∧
    commits s = {[ 4%N := Reappear.C ]} ∧
    File Reappear.A "file.txt" = FileFound.
Proof.
  eexists. split_and!; vm_compute; reflexivity.
Qed.

(** C6.  A walk step that reaches a commit of the seen set returns at once;
    along any walk the commits visited (marked seen) are pairwise distinct
    and were not in the seen set the walk was given, the set it leaves is
    the one it was given plus those, and no commit goes to the accumulator
    twice; and each of the three walks of [computeDiffCommits] starts from
    an empty seen set, so that the end revision is visited by all three and
    every commit at most once by each. *)
Theorem visited_at_most_once (repo : gmap N Commit)
    (beginCommit endCommit : Commit) :
  (∀ fuel acc cur statuses s,
     Hash cur ∈ seen s →
     accumulateCommitsForPaths repo beginCommit (S fuel) acc (Some cur)
       statuses s = Ok (logged (AlreadyProcessed cur) s)) ∧
  (∀ fuel acc current statuses s s',
     accumulateCommitsForPaths repo beginCommit fuel acc current statuses s
       = Ok s' →
     ∃ evs,
       debugLog s' = debugLog s ++ evs ∧
       NoDup (visits evs) ∧
       NoDup (accumulated evs) ∧
       (∀ h, h ∈ visits evs → h ∉ seen s) ∧
       seen s' = list_to_set (visits evs) ∪ seen s) ∧
  (∀ cl s,
     collectCommits repo beginCommit endCommit cl = Ok s →
     ∃ evs1 evs2 evs3,
       debugLog s = evs1 ++ evs2 ++ evs3 ∧
       (NoDup (visits evs1) ∧ Hash endCommit ∈ visits evs1) ∧
       (NoDup (visits evs2) ∧ Hash endCommit ∈ visits evs2) ∧
       (NoDup (visits evs3) ∧ Hash endCommit ∈ visits evs3)).
Proof.
  assert (∀ fuel acc current statuses s s',
    accumulateCommitsForPaths repo beginCommit fuel acc current statuses s
      = Ok s' →
    ∃ evs,
      debugLog s' = debugLog s ++ evs ∧ NoDup (visits evs) ∧
      NoDup (accumulated evs) ∧ (∀ h, h ∈ visits evs → h ∉ seen s) ∧
      seen s' = list_to_set (visits evs) ∪ seen s) as Hwalk.
  { intros fuel acc current statuses s s' Hw.
    apply walk_log in Hw as (evs & (Hl & Hs & Hn & Hd & Ha & _) & _).
    exists evs. split_and!; try done. by eapply sublist_NoDup. }
  assert (∀ acc statuses cs lg s',
    walkFromEnd repo beginCommit endCommit acc statuses cs lg = Ok s' →
    ∃ evs, debugLog s' = lg ++ evs ∧ NoDup (visits evs) ∧
           Hash endCommit ∈ visits evs) as Htop.
  { intros acc statuses cs lg s' Hw. unfold walkFromEnd in Hw.
    pose proof (walk_marks_start _ _ _ _ _ _ _ _ Hw) as Hin.
    apply Hwalk in Hw as (evs & Hl & Hn & _ & _ & Hs).
    exists evs. split_and!; [done..|].
    rewrite Hs in Hin. simpl in Hin. set_solver. }
  split_and!; [|done|].
  - intros fuel acc cur statuses s Hin.
    rewrite walk_unfold. by rewrite decide_True.
  - intros cl s (s1 & s2 & H1 & H2 & H3)%collectCommits_Ok_inv.
    apply Htop in H1 as (evs1 & Hl1 & Hn1 & He1).
    apply Htop in H2 as (evs2 & Hl2 & Hn2 & He2).
    apply Htop in H3 as (evs3 & Hl3 & Hn3 & He3).
    exists evs1, evs2, evs3. split_and!; try done.
    by rewrite Hl3, Hl2, Hl1, app_assoc.
Qed.

(** In the diamond R - A - {B, C} - D - E the walk from E reaches A along B
    and finds it seen along C: A is visited once and goes to the accumulator
    once. *)
Example diamond_shared_ancestor_once :
  ∃ s,
    accumulateCommitsForPaths Diamond.repo Diamond.R 6 addAlways
      (Some Diamond.E) Diamond.statuses Diamond.start = Ok s ∧
    visits (debugLog s) = [6; 5; 3; 2; 1; 4]%N ∧
    accumulated (debugLog s) = [6; 3; 2; 4]%N ∧
    last (debugLog s) = Some (AlreadyProcessed Diamond.A).
Proof.
  eexists. split_and!; vm_compute; reflexivity.
Qed.




(** C8.  A rename whose new name lies under vendor/ while the old one does
    not: only the old name is tested, and the new name enters [added]. *)
Theorem changedFiles_rename_into_vendor :
  changedFiles [(Some "lib/a.go", Some "vendor/a.go")]
    = Ok (mkChangeList ["vendor/a.go"] ["lib/a.go"] []) ∧
  HasPrefix "vendor/a.go" "vendor/" = true.
Proof. split; vm_compute; reflexivity. Qed.

(** What [changedFiles] does keep out: no path of [removed] or [changed]
    lies under vendor/, and a path of [added] that does is the new name of
    a rename from outside vendor/. *)
Lemma changedFiles_kept_out (patches : list (option string * option string))
    (cl : changeList) (path : string) :
  changedFiles patches = Ok cl →
  HasPrefix path "vendor/" = true →
  (path ∉ removed cl) ∧ (path ∉ changed cl) ∧
  (path ∈ added cl →
   ∃ srcFile, (Some srcFile, Some path) ∈ patches ∧ srcFile ≠ path ∧
              Contains srcFile "vendor/" = false).
Proof.
  intros Hcl Hpre. assert (excluded path) as Hex by by apply HasPrefix_Contains.
  pose proof (changedFiles_filtered _ _ Hcl) as [Hr Hc].
  rewrite Forall_forall in Hr, Hc. split_and!.
  - intros Hin. by apply Hr in Hin.
  - intros Hin. by apply Hc in Hin.
  - intros Hin. apply changedFiles_added in Hcl. rewrite Forall_forall in Hcl.
    destruct (Hcl path Hin) as [?|(src & ? & ? & ?)]; [done|].
    exists src. split_and!; [done..|]. unfold excluded in *.
    by destruct (Contains src "vendor/").
Qed.

Lemma visited_at_most_once_witness :
  Hash Diamond.A ∈ seen (mkWalkState {[2%N]} ∅ []) ∧
  accumulateCommitsForPaths Diamond.repo Diamond.R 1 addAlways
    (Some Diamond.A) Diamond.statuses (mkWalkState {[2%N]} ∅ [])
  = Ok (logged (AlreadyProcessed Diamond.A) (mkWalkState {[2%N]} ∅ [])).
Proof.
  assert (Hash Diamond.A ∈ seen (mkWalkState {[2%N]} ∅ [])) as Hin
    by (vm_compute; reflexivity).
  split; [exact Hin|].
  apply (proj1 (visited_at_most_once Diamond.repo Diamond.R Diamond.E)).
  exact Hin.
Defined.



(** A single-parent commit and a merge whose recorded parent is missing
    from the store: a panic for the first, a fatal error for the second. *)
Example dangling_parent_runs :
  computeDiffCommits Dangling.repo Dangling.R Dangling.X valuesInOrder
    Dangling.addedFile = Panic ∧
  computeDiffCommits Dangling.repo Dangling.R Dangling.M valuesInOrder
    Dangling.addedFile = Fatal.
Proof. split; vm_compute; reflexivity. Qed.

(** C10.  The accumulator only ever sees commits with exactly one parent:
    the walk is the same for two accumulators that agree on those, every
    commit the log shows going to the accumulator has one parent, and so has
    every commit of the sequence [computeDiffCommits] returns. *)
Theorem accumulator_single_parent_only (repo : gmap N Commit)
    (beginCommit endCommit : Commit) :
  (∀ fuel acc acc' current statuses s,
     (∀ c cs, NumParents c = 1 → acc c cs = acc' c cs) →
     accumulateCommitsForPaths repo beginCommit fuel acc current statuses s
     = accumulateCommitsForPaths repo beginCommit fuel acc' current statuses s) ∧
  (∀ fuel acc current statuses s s',
     accumulateCommitsForPaths repo beginCommit fuel acc current statuses s
       = Ok s' →
     ∃ evs,
       debugLog s' = debugLog s ++ evs ∧
       ∀ c, RunningAccumulator c ∈ evs → NumParents c = 1) ∧
  (∀ rangeCommits cl l,
     rangeOrder rangeCommits →
     computeDiffCommits repo beginCommit endCommit rangeCommits cl = Ok l →
     ∀ c, c ∈ l → NumParents c = 1).
Proof.
  split_and!.
  - intros fuel acc acc' current statuses s Hext. by apply walk_acc_ext.
  - intros fuel acc current statuses s s' Hw.
    apply walk_log in Hw as (evs & (Hl & _ & _ & _ & _ & Hok) & _).
    exists evs. split; [done|]. intros c Hin. rewrite Forall_forall in Hok.
    by apply Hok in Hin.
  - intros rangeCommits cl l Hr Hl c Hc.
    destruct (computeDiffCommits_elem _ _ _ _ _ _ _ Hr Hl Hc)
      as (s & h & Hs & Hh).
    by eapply collectCommits_entries in Hh as (_ & ? & _).
Qed.

Lemma accumulator_single_parent_only_witness :
  accumulateCommitsForPaths Diamond.repo Diamond.R 6 addSingleParent
    (Some Diamond.E) Diamond.statuses Diamond.start
  = accumulateCommitsForPaths Diamond.repo Diamond.R 6 addAlways
      (Some Diamond.E) Diamond.statuses Diamond.start.
Proof.
  apply (accumulator_single_parent_only Diamond.repo Diamond.R Diamond.E).
  intros c cs Hn. unfold addSingleParent.
  destruct (decide (NumParents c = 1)); [reflexivity|contradiction].
Defined.

(** In the diamond, file.txt is in the tree of the root R and of the merge
    D as of every other commit; the walk for it from E reports A, B, C and
    E, and neither R nor D. *)
Example root_and_merge_not_reported :
  computeDiffCommits Diamond.repo Diamond.R Diamond.E valuesInOrder
    Diamond.addedFile = Ok [Diamond.A; Diamond.B; Diamond.C; Diamond.E] ∧
  File Diamond.R "file.txt" = FileFound ∧
  File Diamond.D "file.txt" = FileFound.
Proof. split_and!; vm_compute; reflexivity. Qed.

(** * Further properties of the code *)

Section Trace.
Context (repo : gmap N Commit) (beginCommit : Commit).
Abbreviation walk := (accumulateCommitsForPaths repo beginCommit).

Lemma updateStatuses_dom current m m' process :
  updateStatuses current m = Ok (m', process) → dom m' = dom m.
Proof.
  intros Hu. pose proof (updateStatuses_fold current m m) as H.
  unfold updateStatuses in Hu. rewrite Hu in H. destruct H as (Hm & _).
  apply set_eq. intros path. rewrite !elem_of_dom, Hm.
  destruct (m !! path) as [[]|] eqn:E; rewrite ?E;
    destruct (File current path); rewrite ?E; split; intros [? ?]; eauto; done.
Qed.

Lemma traced_refl cur m s : traced repo cur m s [] s.
Proof.
  unfold traced. rewrite app_nil_r. split_and!; try done.
  intros c Hc. by apply elem_of_nil in Hc.
Qed.

Lemma traced_app cur m s1 evs1 s2 evs2 s3 :
  traced repo cur m s1 evs1 s2 → traced repo cur m s2 evs2 s3 →
  traced repo cur m s1 (evs1 ++ evs2) s3.
Proof.
  intros (Hl1 & Ha1 & Hp1 & Hc1) (Hl2 & Ha2 & Hp2 & Hc2). split_and!.
  - by rewrite Hl2, Hl1, app_assoc.
  - by apply Forall_app.
  - intros c [Hc|Hc]%elem_of_app; eauto.
  - intros Hno. rewrite Hc2, Hc1; [done| |].
    + intros c Hc. apply (Hno c), elem_of_app. by left.
    + intros c Hc. apply (Hno c), elem_of_app. by right.
Qed.

Lemma traced_event cur m s e :
  accumulatedOf e = None → ancestor repo (eventCommit e) cur →
  ∀ s', debugLog s' = debugLog s ++ [e] → commits s' = commits s →
  traced repo cur m s [e] s'.
Proof.
  intros Ha Hanc s' Hl Hc. split_and!; try done.
  - by constructor.
  - intros c Hin%list_elem_of_singleton. by subst e.
Qed.

Lemma traced_parent cur p i m m' s evs s' :
  Parent repo cur i = Some p → dom m' = dom m →
  traced repo p m' s evs s' → traced repo cur m s evs s'.
Proof.
  intros Hp Hd (Hl & Ha & Hpath & Hc). split_and!; try done.
  - eapply Forall_impl; [done|]. intros e He. by eapply ancestor_parent.
  - intros c Hin. destruct (Hpath c Hin) as (path & ? & ?).
    exists path. by rewrite <-Hd.
Qed.

Lemma walk_trace fuel acc cur m s s' :
  walk fuel acc (Some cur) m s = Ok s' → ∃ evs, traced repo cur m s evs s'.
Proof.
  revert cur m s s'. induction fuel as [|fuel IH]; intros cur0 m s s' Hw;
    apply walk_Ok_inv in Hw as (fuel' & cur & Hfuel & Hcur & Hcases); [done|].
  injection Hfuel as <-. injection Hcur as <-.
  assert (ancestor repo cur0 cur0) as Hself by by apply ancestor_self.
  destruct Hcases as
    [(Hs & ->)|[(Hs & Hn & m' & process & s1 & continue & Hu & Ha & Hc)
               |(Hs & Hn & Hfe)]].
  - exists [AlreadyProcessed cur0]. by apply traced_event.
  - assert (∃ evs1, traced repo cur0 m s (Considering cur0 :: evs1) s1)
      as (evs1 & H1).
    { destruct process.
      - apply runAccumulator_Ok_inv in Ha as (cs' & _ & ->). simpl.
        exists [RunningAccumulator cur0]. split_and!.
        + simpl. by rewrite <-app_assoc.
        + by repeat constructor.
        + intros c [?|Hin%list_elem_of_singleton]%elem_of_cons; [done|].
          injection Hin as ->.
          pose proof (updateStatuses_fold cur0 m m) as H.
          unfold updateStatuses in Hu. rewrite Hu in H.
          destruct H as (_ & Hp & _).
          destruct (proj1 Hp eq_refl) as (path & status & Hl & _ & Hf).
          exists path. split; [|done]. apply elem_of_dom. eauto.
        + intros Hno. destruct (Hno cur0). right. by left.
      - injection Ha as <- <-. exists []. by apply traced_event. }
    destruct continue.
    + destruct (Parent repo cur0 0) as [p|] eqn:Hp;
        [|by apply walk_Ok_inv in Hc as (? & ? & _ & ? & _)].
      apply IH in Hc as (evs2 & H2).
      exists ((Considering cur0 :: evs1) ++ evs2).
      eapply traced_app; [done|]. eapply traced_parent; [done| |done].
      by eapply updateStatuses_dom.
    + subst s'. exists ((Considering cur0 :: evs1) ++ [BailingOut cur0]).
      eapply traced_app; [done|]. by apply traced_event.
  - set (e := if decide (NumParents cur0 = 0) then ReachedRoot cur0
              else ConsideringMerge cur0) in *.
    assert (traced repo cur0 m s [e] (logged e (markSeen cur0 s))) as H1.
    { apply traced_event; try done; unfold e; by case_decide. }
    assert (∃ evs2, traced repo cur0 m (logged e (markSeen cur0 s)) evs2 s')
      as (evs2 & H2).
    { refine (forEach_Ok (λ s s', ∃ evs, traced repo cur0 m s evs s')
                _ _ _ _ _ _ _ Hfe).
      - intros s0. exists []. apply traced_refl.
      - intros sa sb sc (ea & Ha) (eb & Hb). exists (ea ++ eb).
        by eapply traced_app.
      - intros idx sa sb _ Hv.
        apply visitParent_Ok_inv in Hv
          as (p & b & Hp & _ & [[_ ->]|(_ & _ & Hrec)]).
        + exists []. apply traced_refl.
        + apply IH in Hrec as (evs & Ht). exists evs.
          eapply traced_parent; [done| |done]. by rewrite copyMap_id. }
    exists ([e] ++ evs2). by eapply traced_app.
Qed.

End Trace.

Section Kept.
Context (repo : gmap N Commit) (beginCommit : Commit).
Abbreviation walk := (accumulateCommitsForPaths repo beginCommit).

Lemma accumulated_elem c evs :
  RunningAccumulator c ∈ evs → Hash c ∈ accumulated evs.
Proof.
  intros Hin. unfold accumulated. apply list_elem_of_fmap. exists c.
  split; [done|]. apply list_elem_of_omap. by exists (RunningAccumulator c).
Qed.

Lemma walked_accumulated_NoDup s evs s' :
  walked repo s evs s' → NoDup (accumulated evs).
Proof. intros (_ & _ & Hn & _ & Ha & _). by eapply sublist_NoDup. Qed.

Lemma kept_refl acc s : kept acc s [] s.
Proof. split; [done|]. intros _ c Hc. by apply elem_of_nil in Hc. Qed.

Lemma kept_app acc s1 evs1 s2 evs2 s3 :
  NoDup (accumulated (evs1 ++ evs2)) →
  kept acc s1 evs1 s2 → kept acc s2 evs2 s3 →
  kept acc s1 (evs1 ++ evs2) s3.
Proof.
  rewrite accumulated_app. intros (_ & Hdisj & _)%NoDup_app [H1 H1'] [H2 H2'].
  split.
  - intros h Hh. rewrite accumulated_app in Hh.
    rewrite H2, H1; [done| |]; intros ?; apply Hh, elem_of_app; auto.
  - intros Hadd c [Hc|Hc]%elem_of_app; [|by apply H2'].
    rewrite H2; [by apply H1'|]. by apply Hdisj, accumulated_elem.
Qed.

Lemma kept_same acc s e s' :
  accumulatedOf e = None → commits s' = commits s → kept acc s [e] s'.
Proof.
  intros He Hc. split; [by rewrite Hc|].
  intros _ c Hin%list_elem_of_singleton. by subst e.
Qed.

Lemma walk_kept fuel acc current m s s' :
  accOwnKey acc →
  walk fuel acc current m s = Ok s' →
  ∃ evs, walked repo s evs s' ∧ kept acc s evs s'.
Proof.
  intros Hown. revert current m s s'.
  induction fuel as [|fuel IH]; intros current m s s' Hw;
    apply walk_Ok_inv in Hw as (fuel' & cur & Hfuel & -> & Hcases); [done|].
  injection Hfuel as <-.
  destruct Hcases as
    [(Hs & ->)|[(Hs & Hn & m' & process & s1 & continue & Hu & Hacc & Hc)
               |(Hs & Hn & Hfe)]].
  - exists [AlreadyProcessed cur]. split; [apply walked_skip|by apply kept_same].
  - assert (∃ evs1, walked repo s (Considering cur :: evs1) s1 ∧
                    kept acc s (Considering cur :: evs1) s1) as (evs1 & Hw1 & Hk1).
    { destruct process.
      - apply runAccumulator_Ok_inv in Hacc as (cs' & Hacc & ->). simpl in *.
        exists [RunningAccumulator cur]. split; [by apply walked_accumulate|].
        split; simpl.
        + intros h Hh. eapply Hown; [done|]. intros ->. apply Hh.
          unfold accumulated. simpl. by left.
        + intros Hadd c [?|Hin%list_elem_of_singleton]%elem_of_cons; [done|].
          injection Hin as ->. by eapply Hadd.
      - injection Hacc as <- <-. exists []. split; [by apply walked_visit|].
        by apply kept_same. }
    destruct continue.
    + apply IH in Hc as (evs2 & Hw2 & Hk2).
      exists ((Considering cur :: evs1) ++ evs2).
      pose proof (walked_app _ _ _ _ _ _ Hw1 Hw2) as Hw12.
      split; [done|]. eapply kept_app; [|done..].
      by eapply walked_accumulated_NoDup.
    + subst s'. exists ((Considering cur :: evs1) ++ [BailingOut cur]).
      pose proof (walked_app _ _ _ _ _ _ Hw1 (walked_bail repo cur s1 Hn)) as Hw12.
      split; [done|]. eapply kept_app; [|done|by apply kept_same].
      by eapply walked_accumulated_NoDup.
  - set (e := if decide (NumParents cur = 0) then ReachedRoot cur
              else ConsideringMerge cur) in *.
    assert (∃ evs2, walked repo (logged e (markSeen cur s)) evs2 s' ∧
                    kept acc (logged e (markSeen cur s)) evs2 s')
      as (evs2 & Hw2 & Hk2).
    { refine (forEach_Ok (λ s s', ∃ evs, walked repo s evs s' ∧ kept acc s evs s')
                _ _ _ _ _ _ _ Hfe).
      - intros s0. exists []. split; [apply walked_refl|apply kept_refl].
      - intros sa sb sc (ea & Ha & Hka) (eb & Hb & Hkb). exists (ea ++ eb).
        pose proof (walked_app _ _ _ _ _ _ Ha Hb) as Hab.
        split; [done|]. eapply kept_app; [|done..].
        by eapply walked_accumulated_NoDup.
      - intros idx sa sb _ Hv.
        apply visitParent_Ok_inv in Hv
          as (p & b & _ & _ & [[_ ->]|(_ & _ & Hrec)]).
        + exists []. split; [apply walked_refl|apply kept_refl].
        + by apply IH in Hrec. }
    assert (∃ evs, walked repo s evs s') as (evsAll & HwAll).
    { assert (walk (S fuel) acc (Some cur) m s = Ok s') as Hfull.
      { rewrite walk_unfold. by rewrite decide_False, decide_False by done. }
      apply walk_log in Hfull as (evs & ? & _). eauto. }
    assert (evsAll = [e] ++ evs2) as ->.
    { destruct HwAll as (Hl & _), Hw2 as (Hl2 & _). simpl in Hl2.
      rewrite Hl2, <-app_assoc in Hl. by apply app_inv_head in Hl. }
    exists ([e] ++ evs2). split; [done|].
    eapply kept_app; [|apply kept_same; [unfold e; by case_decide|done]|done].
    by eapply walked_accumulated_NoDup.
Qed.

End Kept.

Section ChangeListFacts.

Lemma classifyPatch_contrib patch cl :
  classifyPatch patch cl =
  match patch with
  | (None, None) => Panic
  | _ => Ok (mkChangeList (added cl ++ patchAdded patch)
               (removed cl ++ patchRemoved patch)
               (changed cl ++ patchChanged patch))
  end.
Proof.
  destruct cl as [a r c].
  destruct patch as [[src|] [dst|]]; simpl; try done;
    repeat case_decide; try done;
    repeat match goal with
    | |- context [Contains ?p "vendor/"] => destruct (Contains p "vendor/")
    end; by rewrite ?app_nil_r.
Qed.

Lemma forEach_classifyPatch patches cl :
  forEach classifyPatch patches cl =
  if decide ((None, None) ∈ patches) then Panic
  else Ok (mkChangeList (added cl ++ patches ≫= patchAdded)
             (removed cl ++ patches ≫= patchRemoved)
             (changed cl ++ patches ≫= patchChanged)).
Proof.
  revert cl. induction patches as [|patch patches IH]; intros cl.
  - destruct (decide (_ ∈ [])) as [Hin|_]; [by apply elem_of_nil in Hin|].
    destruct cl. cbn. by rewrite !app_nil_r.
  - cbn [forEach]. rewrite classifyPatch_contrib.
    destruct (decide (_ ∈ patch :: patches)) as [Hin|Hnin].
    + destruct patch as [[?|] [?|]]; try done; cbn; rewrite IH;
        (rewrite decide_True; [done|]);
        by apply elem_of_cons in Hin as [?|?].
    + assert ((None, None) ∉ patches) as Hnin' by (intros ?; apply Hnin; by right).
      destruct patch as [[?|] [?|]]; [..|destruct Hnin; by left];
        cbn [mbind outcome_mbind bind]; rewrite IH, decide_False by done;
        cbn [added removed changed mbind list_bind]; by rewrite <-!app_assoc.
Qed.

End ChangeListFacts.

Lemma changedFiles_lists patches cl :
  changedFiles patches = Ok cl →
  ((None, None) ∉ patches) ∧
  added cl = patches ≫= patchAdded ∧
  removed cl = patches ≫= patchRemoved ∧
  changed cl = patches ≫= patchChanged.
Proof.
  unfold changedFiles. rewrite forEach_classifyPatch.
  case_decide; [done|]. by intros [= <-].
Qed.

(** X1.  [changedFiles] crashes exactly when the diff holds a patch with
    neither file, and returns a change list for every other diff. *)
Theorem changedFiles_outcome
    (patches : list (option string * option string)) :
  (changedFiles patches = Panic ↔ (None, None) ∈ patches) ∧
  ((None, None) ∉ patches ↔ ∃ cl, changedFiles patches = Ok cl).
Proof.
  unfold changedFiles. rewrite forEach_classifyPatch.
  case_decide as Hin; split; split; try done; eauto.
  by intros [? ?].
Qed.

(** X2.  The change list of two diffs put end to end is, list by list, the
    change list of the first followed by that of the second: paths come in
    the order of their patches. *)
Theorem changedFiles_app
    (patches1 patches2 : list (option string * option string))
    (cl1 cl2 : changeList) :
  changedFiles patches1 = Ok cl1 →
  changedFiles patches2 = Ok cl2 →
  changedFiles (patches1 ++ patches2)
  = Ok (mkChangeList (added cl1 ++ added cl2) (removed cl1 ++ removed cl2)
          (changed cl1 ++ changed cl2)).
Proof.
  intros (Hn1 & -> & -> & ->)%changedFiles_lists
         (Hn2 & -> & -> & ->)%changedFiles_lists.
  unfold changedFiles. rewrite forEach_classifyPatch.
  rewrite decide_False by (intros [?|?]%elem_of_app; done).
  simpl. by rewrite !bind_app.
Qed.

Lemma changedFiles_app_witness :
  changedFiles ([(None, Some "new.go")] ++ [(Some "old.go", None)])
  = Ok (mkChangeList (["new.go"] ++ []) ([] ++ ["old.go"]) ([] ++ [])).
Proof.
  apply (changedFiles_app [(None, Some "new.go")] [(Some "old.go", None)]
           (mkChangeList ["new.go"] [] []) (mkChangeList [] ["old.go"] [])).
  - vm_compute. reflexivity.
  - vm_compute. reflexivity.
Defined.

(** X3.  Which paths a change list holds.  A path is in [changed] exactly
    when a patch keeps it under its name and it does not contain vendor/; in
    [removed] exactly when it does not contain vendor/ and a patch deletes
    it or renames it; in [added] exactly when a patch creates it and it does
    not contain vendor/, or a patch renames to it a path that does not
    contain vendor/. *)
Theorem changedFiles_members
    (patches : list (option string * option string)) (cl : changeList)
    (path : string) :
  changedFiles patches = Ok cl →
  (path ∈ changed cl ↔
     (Some path, Some path) ∈ patches ∧ Contains path "vendor/" = false) ∧
  (path ∈ removed cl ↔
     Contains path "vendor/" = false ∧
     ((Some path, None) ∈ patches ∨
      ∃ dstFile, dstFile ≠ path ∧ (Some path, Some dstFile) ∈ patches)) ∧
  (path ∈ added cl ↔
     ((None, Some path) ∈ patches ∧ Contains path "vendor/" = false) ∨
     ∃ srcFile, srcFile ≠ path ∧ (Some srcFile, Some path) ∈ patches ∧
                Contains srcFile "vendor/" = false).
Proof.
  intros (_ & -> & -> & ->)%changedFiles_lists. split_and!.
  - rewrite list_elem_of_bind. split.
    + intros ([[src|] [dst|]] & Hin & Hp); simpl in Hin;
        try (by apply elem_of_nil in Hin).
      case_decide as Hne; [by apply elem_of_nil in Hin|].
      subst dst.
      destruct (Contains src "vendor/") eqn:E; [by apply elem_of_nil in Hin|].
      by apply list_elem_of_singleton in Hin as ->.
    + intros [Hin Hc]. exists (Some path, Some path). split; [|done]. simpl.
      rewrite decide_False by (by intros ?). rewrite Hc. by left.
  - rewrite list_elem_of_bind. split.
    + intros ([[src|] [dst|]] & Hin & Hp); simpl in Hin;
        try (by apply elem_of_nil in Hin).
      * case_decide as Hne; [|by apply elem_of_nil in Hin].
        destruct (Contains src "vendor/") eqn:E; [by apply elem_of_nil in Hin|].
        apply list_elem_of_singleton in Hin as ->. split; [done|]. right.
        exists dst. split; [by intros ->|done].
      * destruct (Contains src "vendor/") eqn:E; [by apply elem_of_nil in Hin|].
        apply list_elem_of_singleton in Hin as ->. split; [done|]. by left.
    + intros [Hc [Hin|(dst & Hne & Hin)]].
      * exists (Some path, None). split; [|done]. simpl. rewrite Hc. by left.
      * exists (Some path, Some dst). split; [|done]. simpl.
        rewrite decide_True by (by intros ->). rewrite Hc. by left.
  - rewrite list_elem_of_bind. split.
    + intros ([[src|] [dst|]] & Hin & Hp); simpl in Hin;
        try (by apply elem_of_nil in Hin).
      * case_decide as Hne; [|by apply elem_of_nil in Hin].
        destruct (Contains src "vendor/") eqn:E; [by apply elem_of_nil in Hin|].
        apply list_elem_of_singleton in Hin as ->. right.
        exists src. done.
      * destruct (Contains dst "vendor/") eqn:E; [by apply elem_of_nil in Hin|].
        apply list_elem_of_singleton in Hin as ->. by left.
    + intros [[Hin Hc]|(src & Hne & Hin & Hc)].
      * exists (None, Some path). split; [|done]. simpl. rewrite Hc. by left.
      * exists (Some src, Some path). split; [|done]. simpl.
        rewrite decide_True by done. rewrite Hc. by left.
Qed.

Lemma changedFiles_members_witness :
  "old.go" ∈ removed (mkChangeList ["new.go"] ["old.go"] []) ↔
  Contains "old.go" "vendor/" = false ∧
  ((Some "old.go", None) ∈ [(Some "old.go", Some "new.go")] ∨
   ∃ dstFile, dstFile ≠ "old.go" ∧
     (Some "old.go", Some dstFile) ∈ [(Some "old.go", Some "new.go")]).
Proof.
  apply (changedFiles_members [(Some "old.go", Some "new.go")]
           (mkChangeList ["new.go"] ["old.go"] []) "old.go").
  vm_compute. reflexivity.
Defined.

Section WalkExtras.
Context (repo : gmap N Commit) (beginCommit : Commit).
Abbreviation walk := (accumulateCommitsForPaths repo beginCommit).

Lemma walk_exhausted fuel acc current m s :
  exhausted m → walk fuel acc current m s = walk fuel acc current ∅ s.
Proof.
  induction m as [|path status m Hnone IH] using map_ind; intros Hex; [done|].
  assert (status = fileStatusRemoved) as ->
    by (apply (Hex path); by rewrite lookup_insert_eq).
  rewrite <-(walk_delete_removed repo beginCommit fuel acc current
               (<[path:=fileStatusRemoved]> m) s path)
    by (by rewrite lookup_insert_eq).
  rewrite delete_insert_id by done. apply IH.
  intros q st Hq. apply (Hex q). rewrite lookup_insert_ne; [done|].
  intros ->. congruence.
Qed.

Lemma log_unique (s s' : walkState) evs1 evs2 :
  debugLog s' = debugLog s ++ evs1 → debugLog s' = debugLog s ++ evs2 →
  evs1 = evs2.
Proof. intros -> H. by apply app_inv_head in H. Qed.

Lemma addAlways_ownKey : accOwnKey addAlways.
Proof. intros c cs cs' continue [= <- _] h Hne. by rewrite lookup_insert_ne. Qed.

Lemma addAlways_adds : accAdds addAlways.
Proof. intros c cs cs' continue [= <- _]. by rewrite lookup_insert_eq. Qed.

Lemma initStatuses_lookup status paths path :
  initStatuses status paths !! path
  = if decide (path ∈ paths) then Some status else None.
Proof.
  unfold initStatuses.
  assert (∀ m0 : gmap string fileStatus,
    foldl (λ m p, <[p:=status]> m) m0 paths !! path
    = if decide (path ∈ paths) then Some status else m0 !! path) as H.
  { induction paths as [|p paths IH]; intros m0; cbn [foldl].
    - by destruct (decide (path ∈ [])) as [?%elem_of_nil|].
    - rewrite IH. destruct (decide (path ∈ paths)) as [Hin|Hnin].
      + rewrite decide_True; [done|by right].
      + destruct (decide (path = p)) as [->|Hne].
        * rewrite decide_True by (by left). by rewrite lookup_insert_eq.
        * rewrite decide_False by (intros [?|?]%elem_of_cons; done).
          by rewrite lookup_insert_ne. }
  rewrite H. by case_decide.
Qed.

Lemma values_hashes (m : gmap N Commit) :
  (∀ h c, m !! h = Some c → h = Hash c) →
  Hash <$> (map_to_list m).*2 = (map_to_list m).*1.
Proof.
  intros Hkey.
  assert (Forall (λ hc, Hash hc.2 = hc.1) (map_to_list m)) as HF.
  { apply Forall_forall. intros [h c] Hin%elem_of_map_to_list. simpl.
    symmetry. by apply Hkey. }
  induction HF as [|[h c] l Hhc _ IH]; [done|].
  rewrite !fmap_cons. simpl in Hhc |- *. by f_equal.
Qed.

End WalkExtras.

Section AddedEntries.
Context (repo : gmap N Commit) (beginCommit : Commit).
Abbreviation walk := (accumulateCommitsForPaths repo beginCommit).

Lemma added_walk_entries fuel cur m s s' :
  walk fuel addAlways (Some cur) m s = Ok s' →
  ∀ h c, commits s' !! h = Some c →
    commits s !! h = Some c ∨
    ∃ path, path ∈ dom m ∧ File c path = FileFound.
Proof.
  intros Hw h c Hc.
  destruct (walk_kept _ _ _ _ _ _ _ _ addAlways_ownKey Hw)
    as (evs & (Hl & _) & Hsame & Hadds).
  destruct (walk_trace _ _ _ _ _ _ _ _ Hw) as (evs' & Hl' & _ & Hpath & _).
  assert (evs' = evs) as -> by by eapply log_unique.
  destruct (decide (h ∈ accumulated evs)) as [Hin|Hnin];
    [right|left; by rewrite <-Hsame].
  unfold accumulated in Hin. apply list_elem_of_fmap in Hin as (c' & -> & Hc').
  apply list_elem_of_omap in Hc' as (e & He & Hacc).
  destruct e; simplify_eq/=.
  rewrite (Hadds addAlways_adds _ He) in Hc. injection Hc as <-.
  by apply Hpath.
Qed.

End AddedEntries.

(** X4.  Once no status but Removed is left (or no path is tracked at all)
    the walk is the walk of the empty status map: it may still run down the
    history, but it never calls the accumulator and returns the result map
    it was given. *)
Theorem exhausted_statuses_report_nothing (repo : gmap N Commit)
    (beginCommit : Commit) (fuel : nat) (acc : accumulator)
    (current : option Commit) (statuses : gmap string fileStatus)
    (s : walkState) :
  exhausted statuses →
  accumulateCommitsForPaths repo beginCommit fuel acc current statuses s
  = accumulateCommitsForPaths repo beginCommit fuel acc current ∅ s ∧
  ∀ s',
    accumulateCommitsForPaths repo beginCommit fuel acc current statuses s
      = Ok s' →
    commits s' = commits s ∧
    ∃ evs, debugLog s' = debugLog s ++ evs ∧
           ∀ c, RunningAccumulator c ∉ evs.
Proof.
  intros Hex. split; [by apply walk_exhausted|].
  intros s'. rewrite (walk_exhausted _ _ _ _ _ _ _ Hex). intros Hw.
  pose proof Hw as Hw'.
  apply walk_Ok_inv in Hw' as (_ & cur & _ & -> & _).
  apply walk_trace in Hw as (evs & Hl & _ & Hpath & Hsame).
  assert (∀ c, RunningAccumulator c ∉ evs) as Hno.
  { intros c Hin. destruct (Hpath c Hin) as (path & Hd & _).
    rewrite dom_empty_L in Hd. by apply not_elem_of_empty in Hd. }
  split; [by apply Hsame|]. by exists evs.
Qed.

Lemma exhausted_statuses_report_nothing_witness :
  accumulateCommitsForPaths Reappear.repo Reappear.Q 5 addAlways
    (Some Reappear.C) Reappear.removedStatus Diamond.start
  = accumulateCommitsForPaths Reappear.repo Reappear.Q 5 addAlways
      (Some Reappear.C) ∅ Diamond.start.
Proof.
  apply (exhausted_statuses_report_nothing Reappear.repo Reappear.Q 5
           addAlways (Some Reappear.C) Reappear.removedStatus Diamond.start).
  intros path status Hl. unfold Reappear.removedStatus in Hl.
  apply lookup_singleton_Some in Hl as [_ <-]. reflexivity.
Defined.

(** X5.  What the unconditional walk leaves in the result map: every commit
    its log shows going to the accumulator is there under its hash, is an
    ancestor of the commit the walk started from and has one of the tracked
    paths in its tree; under every other hash the map is as it was. *)
Theorem added_walk_result_map (repo : gmap N Commit) (beginCommit : Commit)
    (fuel : nat) (cur : Commit) (statuses : gmap string fileStatus)
    (s s' : walkState) :
  accumulateCommitsForPaths repo beginCommit fuel addAlways (Some cur)
    statuses s = Ok s' →
  ∃ evs,
    debugLog s' = debugLog s ++ evs ∧
    (∀ h, h ∉ accumulated evs → commits s' !! h = commits s !! h) ∧
    (∀ c, RunningAccumulator c ∈ evs →
          commits s' !! Hash c = Some c ∧
          ancestor repo c cur ∧
          ∃ path, path ∈ dom statuses ∧ File c path = FileFound).
Proof.
  intros Hw.
  destruct (walk_kept _ _ _ _ _ _ _ _ addAlways_ownKey Hw)
    as (evs & (Hl & _) & Hsame & Hadds).
  destruct (walk_trace _ _ _ _ _ _ _ _ Hw) as (evs' & Hl' & Hanc & Hpath & _).
  assert (evs' = evs) as -> by by eapply log_unique.
  exists evs. split_and!; [done..|].
  intros c Hin. split_and!.
  - by apply Hadds; [apply addAlways_adds|].
  - rewrite Forall_forall in Hanc. by apply (Hanc _ Hin).
  - by apply Hpath.
Qed.

Lemma added_walk_result_map_witness :
  ∃ s',
    accumulateCommitsForPaths Linear.repo Linear.A 5 addAlways
      (Some Linear.C) Diamond.statuses Diamond.start = Ok s' ∧
    ∃ evs,
      debugLog s' = debugLog Diamond.start ++ evs ∧
      (∀ h, h ∉ accumulated evs →
            commits s' !! h = commits Diamond.start !! h) ∧
      (∀ c, RunningAccumulator c ∈ evs →
            commits s' !! Hash c = Some c ∧
            ancestor Linear.repo c Linear.C ∧
            ∃ path, path ∈ dom Diamond.statuses ∧ File c path = FileFound).
Proof.
  eexists. split; [vm_compute; reflexivity|].
  apply (added_walk_result_map Linear.repo Linear.A 5 Linear.C
           Diamond.statuses Diamond.start).
  vm_compute. reflexivity.
Defined.

(** X6.  A walk marks nothing but ancestors of the commit it starts from:
    every hash of the seen set it leaves was there before or is the hash of
    such an ancestor. *)
Theorem walk_marks_only_ancestors (repo : gmap N Commit)
    (beginCommit : Commit) (fuel : nat) (acc : accumulator) (cur : Commit)
    (statuses : gmap string fileStatus) (s s' : walkState) :
  accumulateCommitsForPaths repo beginCommit fuel acc (Some cur) statuses s
    = Ok s' →
  ∀ h, h ∈ seen s' →
       h ∈ seen s ∨ ∃ c, Hash c = h ∧ ancestor repo c cur.
Proof.
  intros Hw h Hh.
  destruct (walk_log _ _ _ _ _ _ _ _ Hw) as (evs & (Hl & Hs & _) & _).
  destruct (walk_trace _ _ _ _ _ _ _ _ Hw) as (evs' & Hl' & Hanc & _).
  assert (evs' = evs) as -> by by eapply log_unique.
  rewrite Hs in Hh. apply elem_of_union in Hh as [Hh|Hh]; [right|by left].
  apply elem_of_list_to_set in Hh. unfold visits in Hh.
  apply list_elem_of_fmap in Hh as (c & -> & Hc).
  apply list_elem_of_omap in Hc as (e & He & Hv).
  exists c. split; [done|]. rewrite Forall_forall in Hanc.
  specialize (Hanc e He). by destruct e; simplify_eq/=.
Qed.

Lemma walk_marks_only_ancestors_witness :
  ∃ s',
    accumulateCommitsForPaths Diamond.repo Diamond.R 7 addAlways
      (Some Diamond.E) Diamond.statuses Diamond.start = Ok s' ∧
    ∀ h, h ∈ seen s' →
         h ∈ seen Diamond.start ∨
         ∃ c, Hash c = h ∧ ancestor Diamond.repo c Diamond.E.
Proof.
  eexists. split; [vm_compute; reflexivity|].
  apply (walk_marks_only_ancestors Diamond.repo Diamond.R 7 addAlways
           Diamond.E Diamond.statuses Diamond.start).
  vm_compute. reflexivity.
Defined.



(** X8.  The gate of [addIfNotAncestor]: when it returns, it lets the walk
    go on exactly when the commit is not an ancestor of the reference
    commit, in which case the commit is put into the result map under its
    hash; for an ancestor the map is returned as it is.  It neither panics
    nor runs forever. *)
Theorem addIfNotAncestor_gate (repo : gmap N Commit) (base c : Commit)
    (commitsSet commitsSet' : gmap N Commit) (continue : bool) :
  resolveCommit repo (Hash base) = Ok base →
  addIfNotAncestor repo base c commitsSet = Ok (commitsSet', continue) →
  (continue = true ↔ ¬ ancestor repo c base) ∧
  commitsSet' = (if continue then <[Hash c:=c]> commitsSet else commitsSet) ∧
  ∀ c' cs, addIfNotAncestor repo base c' cs ≠ Panic ∧
           addIfNotAncestor repo base c' cs ≠ OutOfFuel.
Proof.
  intros Hb%resolveCommit_Ok Ha. unfold addIfNotAncestor in Ha.
  destruct (IsAncestor repo c base) as [b| | |] eqn:Hia; simpl in Ha; try done.
  split_and!.
  - destruct b; simpl in Ha; injection Ha as <- <-.
    + split; [done|]. intros Hn. destruct Hn. by apply IsAncestor_true.
    + split; [|done]. intros _. by apply IsAncestor_false.
  - by destruct b; simpl in Ha; injection Ha as <- <-.
  - intros c' cs. split; [|apply addIfNotAncestor_total].
    unfold addIfNotAncestor, IsAncestor. case_decide; [done|].
    assert (∀ fuel target stack met,
      preorder repo fuel target stack met ≠ Panic) as Hnp.
    { induction fuel as [|fuel IHf]; intros target stack;
        induction stack as [|h rest IHs]; intros met;
        rewrite ?preorder_nil, ?preorder_cons; try done;
        (case_decide; [apply IHs|]);
        (destruct (GetCommit repo h); [|done]); (case_decide; [done|]);
        [done|apply IHf]. }
    specialize (Hnp (size repo) (Hash c') (ParentHashes base) {[Hash base]}).
    by destruct (preorder _ _ _ _ _) as [[]| | |].
Qed.

Lemma addIfNotAncestor_gate_witness :
  (true = true ↔ ¬ ancestor Linear.repo Linear.C Linear.A).
Proof.
  apply (addIfNotAncestor_gate Linear.repo Linear.A Linear.C ∅
           {[3%N := Linear.C]} true).
  - vm_compute. reflexivity.
  - vm_compute. reflexivity.
Defined.

Lemma collectCommits_result (repo : gmap N Commit)
    (beginCommit endCommit : Commit) (cl : changeList) (s : walkState) :
  GetCommit repo (Hash endCommit) = Some endCommit →
  collectCommits repo beginCommit endCommit cl = Ok s →
  ∃ s1,
    walkFromEnd repo beginCommit endCommit addAlways
      (initStatuses fileStatusFound (added cl)) ∅ [] = Ok s1 ∧
    commits s = commits s1.
Proof.
  intros He (s1 & s2 & H1 & H2 & H3)%collectCommits_Ok_inv.
  exists s1. split; [done|].
  assert (∀ cur, Some endCommit = Some cur →
    GetCommit repo (Hash cur) = Some cur ∧ ancestor repo cur endCommit) as Hcur.
  { intros ? [= <-]. split; [done|by apply ancestor_self]. }
  unfold walkFromEnd in H2, H3.
  apply (gated_walk_adds_nothing _ _ _ _ _ _ _ _ He Hcur) in H2, H3.
  simpl in H2, H3. congruence.
Qed.

(** X9.  The sequence [computeDiffCommits] returns names no commit twice:
    the hashes of its commits are pairwise distinct. *)
Theorem computeDiffCommits_no_duplicates (repo : gmap N Commit)
    (beginCommit endCommit : Commit)
    (rangeCommits : gmap N Commit → list Commit) (cl : changeList)
    (l : list Commit) :
  rangeOrder rangeCommits →
  computeDiffCommits repo beginCommit endCommit rangeCommits cl = Ok l →
  NoDup (Hash <$> l).
Proof.
  intros Hr (s & Hs & ->)%computeDiffCommits_Ok_inv.
  rewrite sortSlice_perm, (Hr (commits s)), values_hashes.
  - apply NoDup_fst_map_to_list.
  - intros h c Hc. by eapply collectCommits_entries in Hc as (? & _).
Qed.

Lemma computeDiffCommits_no_duplicates_witness :
  NoDup (Hash <$> [Diamond.A; Diamond.B; Diamond.C; Diamond.E]).
Proof.
  apply (computeDiffCommits_no_duplicates Diamond.repo Diamond.R Diamond.E
           valuesInOrder Diamond.addedFile).
  - intros m. reflexivity.
  - vm_compute. reflexivity.
Defined.

(** X10.  Every commit of the sequence [computeDiffCommits] returns has one
    of the added paths of the change list in its tree; with no added path
    the sequence is empty. *)
Theorem computeDiffCommits_reports_added_paths (repo : gmap N Commit)
    (beginCommit endCommit : Commit)
    (rangeCommits : gmap N Commit → list Commit) (cl : changeList)
    (l : list Commit) :
  rangeOrder rangeCommits →
  resolveCommit repo (Hash endCommit) = Ok endCommit →
  computeDiffCommits repo beginCommit endCommit rangeCommits cl = Ok l →
  (∀ c, c ∈ l → ∃ path, path ∈ added cl ∧ File c path = FileFound) ∧
  (added cl = [] → l = []).
Proof.
  intros Hr He%resolveCommit_Ok Hl.
  assert (∀ c, c ∈ l → ∃ path, path ∈ added cl ∧ File c path = FileFound)
    as Hall.
  { intros c Hc.
    destruct (computeDiffCommits_elem _ _ _ _ _ _ _ Hr Hl Hc)
      as (s & h & Hs & Hh).
    destruct (collectCommits_result _ _ _ _ _ He Hs) as (s1 & H1 & Heq).
    rewrite Heq in Hh. unfold walkFromEnd in H1.
    destruct (added_walk_entries _ _ _ _ _ _ _ H1 h c Hh) as [Hold|Hnew].
    { simpl in Hold. by rewrite lookup_empty in Hold. }
    destruct Hnew as (path & Hd & Hf). exists path. split; [|done].
    apply elem_of_dom in Hd as [st Hst].
    rewrite initStatuses_lookup in Hst. by case_decide. }
  split; [done|]. intros Hnil. destruct l as [|c l]; [done|].
  destruct (Hall c) as (path & Hin & _); [by left|].
  rewrite Hnil in Hin. by apply elem_of_nil in Hin.
Qed.

Lemma computeDiffCommits_reports_added_paths_witness :
  (∀ c, c ∈ [Linear.B; Linear.C] →
        ∃ path, path ∈ added Linear.addedFile ∧ File c path = FileFound) ∧
  (added Linear.addedFile = [] → [Linear.B; Linear.C] = []).
Proof.
  apply (computeDiffCommits_reports_added_paths Linear.repo Linear.A Linear.C
           valuesInOrder Linear.addedFile [Linear.B; Linear.C]).
  - intros m. reflexivity.
  - vm_compute. reflexivity.
  - vm_compute. reflexivity.
Defined.



Section Strings.

Lemma substring_0_length n s :
  String.length (String.substring 0 n s) = Nat.min n (String.length s).
Proof.
  revert n. induction s as [|c s IH]; intros [|n]; simpl; try done.
  by rewrite IH.
Qed.

Lemma substring_0_prefix n s : String.prefix (String.substring 0 n s) s = true.
Proof.
  revert n. induction s as [|c s IH]; intros [|n]; simpl; try done.
  destruct (Ascii.ascii_dec c c); [apply IH|done].
Qed.

Lemma substring_0_all n s : String.length s ≤ n → String.substring 0 n s = s.
Proof.
  revert n. induction s as [|c s IH]; intros [|n]; simpl; try done; try lia.
  intros Hn. f_equal. apply IH. lia.
Qed.

Lemma substring_0_twice n m s :
  String.substring 0 n (String.substring 0 m s) = String.substring 0 (Nat.min n m) s.
Proof.
  revert n m. induction s as [|c s IH]; intros [|n] [|m]; simpl; try done.
  by rewrite IH.
Qed.

Lemma prefix_trans s1 s2 s3 :
  String.prefix s1 s2 = true → String.prefix s2 s3 = true →
  String.prefix s1 s3 = true.
Proof.
  revert s2 s3. induction s1 as [|c s1 IH]; intros [|c2 s2] [|c3 s3]; simpl;
    try done.
  destruct (Ascii.ascii_dec c c2) as [->|]; [|done].
  destruct (Ascii.ascii_dec c2 c3) as [->|]; [|done].
  apply IH.
Qed.

Lemma Contains_truncated n s sep :
  Contains s sep = false → Contains (String.substring 0 n s) sep = false.
Proof.
  revert n. induction s as [|c s IH]; intros n Hc.
  - by destruct n.
  - cbn [Contains] in Hc.
    destruct (String.prefix sep (String c s)) eqn:Hp; [done|].
    destruct n as [|n].
    + simpl. destruct sep; [done|]. done.
    + cbn [String.substring Contains].
      destruct (String.prefix sep (String c (String.substring 0 n s))) eqn:Hp'.
      * rewrite (prefix_trans sep (String c (String.substring 0 n s)) (String c s))
          in Hp; [done|done|].
        simpl. destruct (Ascii.ascii_dec c c); [|done]. apply substring_0_prefix.
      * by apply IH.
Qed.

Lemma Index_first s sep m :
  sep ≠ EmptyString → Index s sep = Some m →
  Contains (String.substring 0 m s) sep = false.
Proof.
  intros Hsep. revert m. induction s as [|c s IH]; intros m; cbn [Index].
  - destruct (String.prefix sep "") eqn:Hp; [|done].
    intros [= <-]. by destruct sep.
  - destruct (String.prefix sep (String c s)) eqn:Hp.
    + intros [= <-]. simpl. by destruct sep.
    + destruct (Index s sep) as [m'|] eqn:Hi; [|done]. intros [= <-].
      cbn [String.substring Contains].
      destruct (String.prefix sep (String c (String.substring 0 m' s))) eqn:Hp'.
      * rewrite (prefix_trans sep (String c (String.substring 0 m' s)) (String c s))
          in Hp; [done|done|].
        simpl. destruct (Ascii.ascii_dec c c); [|done]. apply substring_0_prefix.
      * by apply IH.
Qed.

Lemma Index_None s sep : Index s sep = None → Contains s sep = false.
Proof.
  induction s as [|c s IH]; cbn [Index Contains].
  - by destruct (String.prefix sep "").
  - destruct (String.prefix sep (String c s)); [done|].
    destruct (Index s sep); [done|]. intros _. by apply IH.
Qed.

Lemma substring_length_le k n s :
  String.length (String.substring k n s) ≤ String.length s - k.
Proof.
  revert k n. induction s as [|c s IH]; intros [|k] [|n]; simpl; try lia.
  - specialize (IH 0 n). lia.
  - apply IH.
  - apply IH.
Qed.

Lemma Index_empty sep : sep ≠ EmptyString → Index EmptyString sep = None.
Proof. by destruct sep. Qed.

(** The length of the string is fuel enough for [genSplit]: more changes
    nothing. *)
Lemma genSplit_fuel fuel s sep :
  sep ≠ EmptyString → String.length s ≤ fuel →
  genSplit fuel s sep = genSplit (String.length s) s sep.
Proof.
  intros Hsep. remember (String.length s) as n eqn:Hn.
  revert s fuel Hn. induction n as [n IH] using lt_wf_ind.
  intros s fuel -> Hfuel.
  destruct s as [|c s].
  { destruct fuel; cbn [genSplit String.length]; [done|].
    by rewrite Index_empty. }
  destruct fuel as [|fuel]; [simpl in Hfuel; lia|].
  cbn [String.length genSplit].
  destruct (Index (String c s) sep) as [m|]; [|done]. f_equal.
  set (rest := sliceFrom _ _).
  assert (String.length rest ≤ String.length s) as Hrest.
  { unfold rest, sliceFrom.
    pose proof (substring_length_le (m + String.length sep)
      (String.length (String c s) - (m + String.length sep)) (String c s)).
    destruct sep; [done|]. simpl in *. lia. }
  rewrite (IH (String.length rest)); [|simpl; lia|done|simpl in Hfuel; lia].
  symmetry. apply (IH (String.length rest)); [simpl; lia|done|done].
Qed.

Lemma lineFeed_byte : Ascii.nat_of_ascii
  match lineFeed with String c _ => c | _ => Ascii.zero end = 10.
Proof. reflexivity. Qed.

Lemma firstLine_spec message :
  ∃ line, firstLine message = Ok line ∧
          String.prefix line message = true ∧
          Contains line lineFeed = false ∧
          (Contains message lineFeed = false →
           line = message).
Proof.
  unfold firstLine, Split.
  destruct (String.length message) as [|n] eqn:Hlen; cbn [genSplit].
  - destruct message; [|done]. exists EmptyString. by split_and!.
  - destruct (Index message lineFeed) as [m|] eqn:Hi.
    + exists (String.substring 0 m message). split_and!; [done|..].
      * apply substring_0_prefix.
      * by eapply Index_first.
      * intros Hc. clear Hlen. exfalso. revert m Hi.
        induction message as [|c s IH]; intros m; cbn [Index Contains] in *.
        { by destruct (String.prefix _ ""). }
        destruct (String.prefix _ (String c s)); [done|].
        destruct (Index s _) as [m'|] eqn:Hi'; [|done]. intros _.
        by eapply IH.
    + exists message. split_and!; [done| |by apply Index_None|done].
      clear. induction message as [|c s IH]; simpl; [done|].
      by destruct (Ascii.ascii_dec c c).
Qed.

Lemma cutString_cut s l :
  (0 ≤ l)%Z →
  ∃ r, cutString s l = Ok r ∧
       String.prefix r s = true ∧
       String.length r = Nat.min (String.length s) (Z.to_nat l) ∧
       ((Z.of_nat (String.length s) ≤ l)%Z → r = s).
Proof.
  intros Hl. unfold cutString.
  destruct (Z.leb_spec (Z.of_nat (String.length s)) l) as [Hle|Hgt].
  - exists s. split_and!; [done| |lia|done].
    rewrite <-(substring_0_all (String.length s) s) at 1 by done.
    apply substring_0_prefix.
  - destruct (Z.ltb_spec l 0) as [?|_]; [lia|].
    exists (String.substring 0 (Z.to_nat l) s). split_and!; [done|..].
    + apply substring_0_prefix.
    + rewrite substring_0_length. lia.
    + lia.
Qed.

End Strings.

(** X12.  For a bound that is not negative [cutString] returns the longest
    prefix of the string of at most that many bytes: the string itself when
    it is short enough. *)
Theorem cutString_prefix (s : string) (l : Z) :
  (0 ≤ l)%Z →
  ∃ r, cutString s l = Ok r ∧
       String.prefix r s = true ∧
       String.length r = Nat.min (String.length s) (Z.to_nat l) ∧
       ((Z.of_nat (String.length s) ≤ l)%Z → r = s).
Proof. apply cutString_cut. Qed.

Lemma cutString_prefix_witness :
  ∃ r, cutString "0123456789abcdef" 6 = Ok r ∧
       String.prefix r "0123456789abcdef" = true ∧
       String.length r = Nat.min (String.length "0123456789abcdef") (Z.to_nat 6) ∧
       ((Z.of_nat (String.length "0123456789abcdef") ≤ 6)%Z →
        r = "0123456789abcdef").
Proof. apply (cutString_prefix "0123456789abcdef" 6). lia. Defined.

(** X13.  A negative bound makes [cutString] panic on every string, the
    empty one included. *)
Theorem cutString_negative (s : string) (l : Z) :
  (l < 0)%Z → cutString s l = Panic.
Proof.
  intros Hl. unfold cutString.
  destruct (Z.leb_spec (Z.of_nat (String.length s)) l); [lia|].
  by destruct (Z.ltb_spec l 0); [|lia].
Qed.

Lemma cutString_negative_witness : cutString "" (-1) = Panic.
Proof. apply (cutString_negative "" (-1)). lia. Defined.

(** X14.  Cutting twice is cutting once at the smaller bound. *)
Theorem cutString_twice (s r : string) (l l' : Z) :
  (0 ≤ l)%Z → (0 ≤ l')%Z →
  cutString s l = Ok r →
  cutString r l' = cutString s (Z.min l l').
Proof.
  intros Hl Hl'. unfold cutString.
  destruct (Z.leb_spec (Z.of_nat (String.length s)) l) as [Hle|Hgt].
  - intros [= <-].
    destruct (Z.leb_spec (Z.of_nat (String.length s)) l') as [Hle'|Hgt'].
    + by destruct (Z.leb_spec (Z.of_nat (String.length s)) (Z.min l l')); [|lia].
    + destruct (Z.leb_spec (Z.of_nat (String.length s)) (Z.min l l')); [lia|].
      destruct (Z.ltb_spec l' 0); [lia|].
      destruct (Z.ltb_spec (Z.min l l') 0); [lia|].
      by rewrite Z.min_r by lia.
  - destruct (Z.ltb_spec l 0); [lia|]. intros [= <-].
    rewrite substring_0_length.
    destruct (Z.leb_spec (Z.of_nat (String.length s)) (Z.min l l')); [lia|].
    destruct (Z.ltb_spec (Z.min l l') 0); [lia|].
    destruct (Z.leb_spec
      (Z.of_nat (Nat.min (Z.to_nat l) (String.length s))) l') as [Hle'|Hgt'].
    + rewrite Z.min_l by lia. done.
    + destruct (Z.ltb_spec l' 0); [lia|].
      rewrite substring_0_twice. f_equal. f_equal. lia.
Qed.

Lemma cutString_twice_witness :
  cutString "0123456" 3 = cutString "0123456789" (Z.min 7 3).
Proof.
  apply (cutString_twice "0123456789" "0123456" 7 3); [lia|lia|].
  vm_compute. reflexivity.
Defined.

(** X15.  The summary printed for a commit message never fails; it is a
    prefix of the message, holds no line feed and at most 80 bytes, and is
    the whole message when that has no line feed and at most 80 bytes. *)
Theorem summary_of_message (message : string) :
  ∃ r, summary message = Ok r ∧
       String.prefix r message = true ∧
       Contains r lineFeed = false ∧
       String.length r ≤ 80 ∧
       (Contains message lineFeed = false →
        String.length message ≤ 80 → r = message).
Proof.
  destruct (firstLine_spec message) as (line & Hline & Hpre & Hnl & Hall).
  destruct (cutString_cut line 80) as (r & Hr & Hpre' & Hlen & Hshort); [lia|].
  exists r. unfold summary. rewrite Hline. simpl. split_and!; [done|..].
  - by eapply prefix_trans.
  - unfold cutString in Hr.
    destruct (Z.leb_spec (Z.of_nat (String.length line)) 80);
      [by injection Hr as <-|].
    simpl in Hr. injection Hr as <-. by apply Contains_truncated.
  - lia.
  - intros Hc Hl. rewrite (Hall Hc) in *. apply Hshort. lia.
Qed.

Section WellFormed.
Context (repo : gmap N Commit) (beginCommit endCommit : Commit).
Abbreviation walk := (accumulateCommitsForPaths repo beginCommit).

Lemma GetCommit_stored h c :
  GetCommit repo h = Some c →
  ∃ o, repo !! h = Some o ∧ ParentHashes c = ParentHashes o ∧
       Tree c = Tree o.
Proof.
  unfold GetCommit. destruct (repo !! h) as [o|]; [|done].
  intros [= <-]. eauto.
Qed.

Lemma complete_parents c :
  complete repo → GetCommit repo (Hash c) = Some c →
  Forall (λ p, p ∈ dom repo) (ParentHashes c).
Proof.
  intros Hc (o & Ho & -> & _)%GetCommit_stored. by apply (Hc _ _ Ho).
Qed.

Lemma complete_Parent c idx :
  complete repo → GetCommit repo (Hash c) = Some c → idx < NumParents c →
  ∃ p, Parent repo c idx = Some p ∧ GetCommit repo (Hash p) = Some p.
Proof.
  intros Hc Hs Hi. apply lookup_lt_is_Some_2 in Hi as [h Hh].
  pose proof (complete_parents c Hc Hs) as Hall.
  rewrite Forall_forall in Hall.
  apply list_elem_of_lookup_2 in Hh as Hin.
  apply Hall, elem_of_dom in Hin as [o Ho].
  unfold Parent. rewrite Hh. simpl.
  exists (mkCommit h (ParentHashes o) (When o) (Tree o)).
  unfold GetCommit. simpl. by rewrite Ho.
Qed.

Lemma preorder_returns fuel target stack met :
  complete repo → Forall (λ p, p ∈ dom repo) stack →
  returns (preorder repo fuel target stack met).
Proof.
  intros Hc. revert stack met. induction fuel as [|fuel IHf]; intros stack;
    induction stack as [|h rest IHs]; intros met Hst;
    rewrite ?preorder_nil, ?preorder_cons; try done;
    apply Forall_cons in Hst as [Hh Hrest].
  - case_decide; [by apply IHs|].
    apply elem_of_dom in Hh as [o Ho]. unfold GetCommit. rewrite Ho. simpl.
    by case_decide.
  - case_decide; [by apply IHs|].
    apply elem_of_dom in Hh as [o Ho]. unfold GetCommit. rewrite Ho. simpl.
    case_decide; [done|]. apply IHf. apply Forall_app. split; [|done].
    by apply (Hc _ _ Ho).
Qed.

Lemma IsAncestor_Ok c other :
  complete repo → GetCommit repo (Hash other) = Some other →
  ∃ b, IsAncestor repo c other = Ok b.
Proof.
  intros Hc Hs. pose proof (IsAncestor_total repo c other) as Htot.
  unfold IsAncestor in *. case_decide; [by eauto|].
  pose proof (preorder_returns (size repo) (Hash c) (ParentHashes other)
    {[Hash other]} Hc (complete_parents other Hc Hs)) as Hr.
  destruct (preorder _ _ _ _ _) as [b| | |]; by eauto.
Qed.

Lemma readable_updateStatuses cur m :
  readable repo → GetCommit repo (Hash cur) = Some cur →
  ∃ m' process, updateStatuses cur m = Ok (m', process).
Proof.
  intros Hr (o & Ho & _ & Ht)%GetCommit_stored.
  pose proof (updateStatuses_fold cur m m) as H.
  destruct (updateStatuses_outcome cur m) as [?|Hf]; [done|].
  unfold updateStatuses in Hf. rewrite Hf in H.
  destruct H as (path & status & _ & _ & Hfile). exfalso.
  unfold File in Hfile. rewrite Ht in Hfile.
  destruct (Tree o !! path) as [e|] eqn:He; [|done].
  by rewrite (Hr _ _ Ho _ _ He) in Hfile.
Qed.

Lemma forEach_returns {A S} (body : A → S → outcome S) l s :
  (∀ x s, x ∈ l → returns (body x s)) → returns (forEach body l s).
Proof.
  revert s. induction l as [|x l IH]; intros s Hbody; simpl; [done|].
  pose proof (Hbody x s (list_elem_of_here _ _)) as Hx.
  destruct (body x s) as [s1| | |]; simpl; try done.
  apply IH. intros ?? Hin. apply Hbody. by right.
Qed.

Lemma walk_returns fuel acc cur m s :
  complete repo → readable repo →
  GetCommit repo (Hash beginCommit) = Some beginCommit →
  (∀ c cs, ∃ r, acc c cs = Ok r) →
  GetCommit repo (Hash cur) = Some cur →
  returns (walk fuel acc (Some cur) m s).
Proof.
  intros Hc Hr Hb Hacc. revert cur m s.
  induction fuel as [|fuel IH]; intros cur m s Hcur; [done|].
  rewrite walk_unfold. case_decide; [done|]. case_decide as Hn.
  - destruct (readable_updateStatuses cur m Hr Hcur) as (m' & process & ->).
    simpl.
    destruct (complete_Parent cur 0 Hc Hcur) as (p & Hp & Hps); [lia|].
    rewrite Hp.
    destruct process; simpl.
    + unfold runAccumulator. simpl.
      destruct (Hacc cur (commits s)) as [[cs' continue] ->]. simpl.
      destruct continue; [by apply IH|done].
    + by apply IH.
  - apply forEach_returns. intros idx sa Hidx%elem_of_seq.
    unfold visitParent.
    destruct (complete_Parent cur idx Hc Hcur) as (p & -> & Hps); [lia|].
    destruct (IsAncestor_Ok p beginCommit Hc Hb) as [b ->]. simpl.
    destruct (branchProcess p m); simpl; [|done].
    destruct b; [done|]. by apply IH.
Qed.

Lemma walk_Ok fuel acc cur m s :
  complete repo → readable repo →
  GetCommit repo (Hash beginCommit) = Some beginCommit →
  (∀ c cs, ∃ r, acc c cs = Ok r) →
  GetCommit repo (Hash cur) = Some cur →
  size (dom repo ∖ seen s) < fuel →
  ∃ s', walk fuel acc (Some cur) m s = Ok s'.
Proof.
  intros Hc Hr Hb Hacc Hcur Hsz.
  pose proof (walk_returns fuel acc cur m s Hc Hr Hb Hacc Hcur) as Hret.
  pose proof (walk_total repo beginCommit fuel acc (Some cur) m s) as Htot.
  destruct (walk fuel acc (Some cur) m s) as [s'| | |]; try done; [by eauto|].
  exfalso. apply Htot; [| |done|done].
  - intros c cs. by destruct (Hacc c cs) as [r ->].
  - intros ? [= <-]. by apply GetCommit_dom.
Qed.

Lemma addIfNotAncestor_Ok base c cs :
  complete repo → GetCommit repo (Hash base) = Some base →
  ∃ r, addIfNotAncestor repo base c cs = Ok r.
Proof.
  intros Hc Hs. unfold addIfNotAncestor.
  destruct (IsAncestor_Ok c base Hc Hs) as [b ->]. simpl.
  destruct b; simpl; eauto.
Qed.

Lemma walkFromEnd_Ok acc m cs lg :
  complete repo → readable repo →
  GetCommit repo (Hash beginCommit) = Some beginCommit →
  GetCommit repo (Hash endCommit) = Some endCommit →
  (∀ c cs, ∃ r, acc c cs = Ok r) →
  ∃ s', walkFromEnd repo beginCommit endCommit acc m cs lg = Ok s'.
Proof.
  intros Hc Hr Hb He Hacc. unfold walkFromEnd. apply walk_Ok; try done.
  simpl. unfold walkFuel. rewrite <-size_dom.
  assert (dom repo ∖ ∅ = dom repo) as -> by set_solver. lia.
Qed.

End WellFormed.

(** X16.  In a complete and readable store a walk never aborts: started at
    a stored commit with an accumulator that returns, and given one turn
    for each commit not yet seen, it ends without a fatal error and without
    dereferencing a nil commit. *)
Theorem walk_succeeds (repo : gmap N Commit) (beginCommit : Commit)
    (fuel : nat) (acc : accumulator) (cur : Commit)
    (statuses : gmap string fileStatus) (s : walkState) :
  complete repo → readable repo →
  GetCommit repo (Hash beginCommit) = Some beginCommit →
  GetCommit repo (Hash cur) = Some cur →
  (∀ c cs, ∃ r, acc c cs = Ok r) →
  size (dom repo ∖ seen s) < fuel →
  ∃ s', accumulateCommitsForPaths repo beginCommit fuel acc (Some cur)
          statuses s = Ok s'.
Proof. intros. by apply walk_Ok. Qed.

Lemma walk_succeeds_witness :
  ∃ s', accumulateCommitsForPaths Diamond.repo Diamond.A 7 addAlways
          (Some Diamond.E) Diamond.statuses Diamond.start = Ok s'.
Proof.
  apply (walk_succeeds Diamond.repo Diamond.A 7 addAlways Diamond.E
           Diamond.statuses Diamond.start).
  - apply (bool_decide_unpack _). vm_compute. exact I.
  - apply (bool_decide_unpack _). vm_compute. exact I.
  - vm_compute. reflexivity.
  - vm_compute. reflexivity.
  - intros c cs. eexists. reflexivity.
  - vm_compute. lia.
Defined.

(** X17.  On a complete and readable store that holds both ends of the
    range [computeDiffCommits] returns a list, for every change list and
    every order of the final range. *)
Theorem computeDiffCommits_succeeds (repo : gmap N Commit)
    (beginCommit endCommit : Commit)
    (rangeCommits : gmap N Commit → list Commit) (cl : changeList) :
  complete repo → readable repo →
  GetCommit repo (Hash beginCommit) = Some beginCommit →
  GetCommit repo (Hash endCommit) = Some endCommit →
  ∃ l, computeDiffCommits repo beginCommit endCommit rangeCommits cl = Ok l.
Proof.
  intros Hc Hr Hb He. unfold computeDiffCommits, collectCommits.
  destruct (walkFromEnd_Ok repo beginCommit endCommit addAlways
    (initStatuses fileStatusFound (added cl)) ∅ [] Hc Hr Hb He) as [s1 ->].
  { intros c cs. by eexists. }
  simpl.
  destruct (walkFromEnd_Ok repo beginCommit endCommit
    (addIfNotAncestor repo endCommit)
    (initStatuses fileStatusSeeking (removed cl)) (commits s1) (debugLog s1)
    Hc Hr Hb He) as [s2 ->].
  { intros c cs. by apply addIfNotAncestor_Ok. }
  simpl.
  destruct (walkFromEnd_Ok repo beginCommit endCommit
    (addIfNotAncestor repo endCommit)
    (initStatuses fileStatusFound (changed cl)) (commits s2) (debugLog s2)
    Hc Hr Hb He) as [s3 ->].
  { intros c cs. by apply addIfNotAncestor_Ok. }
  simpl. eauto.
Qed.

Lemma computeDiffCommits_succeeds_witness :
  ∃ l, computeDiffCommits Diamond.repo Diamond.A Diamond.E valuesInOrder
         Diamond.addedFile = Ok l.
Proof.
  apply (computeDiffCommits_succeeds Diamond.repo Diamond.A Diamond.E
           valuesInOrder Diamond.addedFile).
  - apply (bool_decide_unpack _). vm_compute. exact I.
  - apply (bool_decide_unpack _). vm_compute. exact I.
  - vm_compute. reflexivity.
  - vm_compute. reflexivity.
Defined.
